(** * Fsa.py: construction of ASG, CTC and HMM alignment automata

    A shallow embedding of [Fsa.py] (Python 2.7): the [Edge] and [Graph]
    classes, the three builders [Asg], [Ctc] and [Hmm],
    [Store.label_conversion], [FastBwFsaShared], [AllPossibleWordsFsa] and
    the name of the pickle of [load_lexicon], followed by the properties
    of the specification that are stated about them and by further
    properties of the code.

    Conventions of the embedding.
    - A Python [int] is a [Z]; a [str] is a [string] (a byte string, as in
      Python 2); [None] is [None] of an [option], or a constructor of its own
      where a field holds values of several types.
    - A raised exception ([AssertionError], [IndexError], [KeyError],
      [TypeError], [NameError]) is the result [None] of a function into
      [option].
    - A [list] of [Edge] objects is a [list Edge].  Inside a [run] every
      [Edge] object occurs once in [fsa.edges], so an assignment to a field
      of [edges[i]] is the update of the list at [i].  Where aliasing is what
      a property is about ([Graph.make_single_state_graph]), objects live in
      an explicit store and lists hold references.
    - The [while] loop of the state renumbering takes fuel. *)

From Stdlib Require Import ZArith Ascii String List Bool Lia Sorted.
From stdpp Require Import base option functions list gmap strings pretty.

Local Open Scope Z_scope.

(** ** Python helpers *)

(** [enumerate(l)], with the start index made explicit. *)
Fixpoint enumerate_from {A : Type} (i : Z) (l : list A) : list (Z * A) :=
  match l with
  | [] => []
  | x :: l' => (i, x) :: enumerate_from (i + 1) l'
  end.

Definition enumerate {A : Type} (l : list A) : list (Z * A) := enumerate_from 0 l.

(** [len(l)] *)
Definition len {A : Type} (l : list A) : Z := Z.of_nat (length l).

(** [l[i]] with Python's negative indices; [None] is [IndexError]. *)
Definition py_index {A : Type} (l : list A) (i : Z) : option A :=
  if 0 <=? i then l !! Z.to_nat i
  else if 0 <=? len l + i then l !! Z.to_nat (len l + i)
  else None.

(** [[i for i, x in enumerate(l) if p(x)]], with the start index made
    explicit. *)
Fixpoint indices_from {A : Type} (p : A → bool) (i : nat) (l : list A) : list nat :=
  match l with
  | [] => []
  | x :: l' => if p x then i :: indices_from p (S i) l' else indices_from p (S i) l'
  end.

Definition indices_where {A : Type} (p : A → bool) (l : list A) : list nat :=
  indices_from p 0 l.

(** The characters of a [str], which is what [for label in lem] iterates
    over, and the one-character [str] a character is. *)
Definition chars (s : string) : list ascii := list_ascii_of_string s.
Definition str1 (c : ascii) : string := String c EmptyString.

(** [ord(c)] *)
Definition ord (c : ascii) : Z := Z.of_N (N_of_ascii c).

(** [str.isspace] on one byte, in the C locale. *)
Definition is_space (c : ascii) : bool :=
  let n := ord c in (n =? 32) || ((9 <=? n) && (n <=? 13)).

(** [str.lower] on one byte, in the C locale. *)
Definition lower_char (c : ascii) : ascii :=
  let n := N_of_ascii c in
  if ((65 <=? n) && (n <=? 90))%N then ascii_of_N (n + 32) else c.

Fixpoint drop_spaces (l : list ascii) : list ascii :=
  match l with
  | [] => []
  | c :: l' => if is_space c then drop_spaces l' else l
  end.

(** [s.strip()] *)
Definition strip (s : string) : string :=
  string_of_list_ascii (rev (drop_spaces (rev (drop_spaces (chars s))))).

(** [s.lower()] *)
Definition lower (s : string) : string :=
  string_of_list_ascii (lower_char <$> chars s).

(** [s.split()]: the maximal runs of non-space characters.  [cur] is the
    run being read. *)
Fixpoint split_ws_go (cur : list ascii) (l : list ascii) : list string :=
  match l with
  | [] => match cur with [] => [] | _ => [string_of_list_ascii cur] end
  | c :: l' =>
      if is_space c then
        match cur with
        | [] => split_ws_go [] l'
        | _ => string_of_list_ascii cur :: split_ws_go [] l'
        end
      else split_ws_go (cur ++ [c]) l'
  end.

Definition split_ws (s : string) : list string := split_ws_go [] (chars s).

(** [s.split(' ')]: the pieces between single spaces, empty pieces kept;
    the result is never empty. *)
Fixpoint split_space_go (cur : list ascii) (l : list ascii) : list string :=
  match l with
  | [] => [string_of_list_ascii cur]
  | c :: l' =>
      if Ascii.eqb c " "%char then string_of_list_ascii cur :: split_space_go [] l'
      else split_space_go (cur ++ [c]) l'
  end.

Definition split_space (s : string) : list string := split_space_go [] (chars s).

(** ** class Edge *)

(** The label of an edge: [int|str|None]. *)
Inductive Label : Type :=
  | LNone
  | LInt (z : Z)
  | LStr (s : string).

(** The weight is a float; the builders only ever write the constants [0.0]
    and [1.], and a weight is kept as the integer it denotes.  The score is
    copied from the lexicon and never computed with. *)
Record Edge : Type := mkEdge {
  source_state_idx : Z;
  target_state_idx : Z;
  label : Label;
  weight : Z;
  label_prev : option string;
  label_next : option string;
  idx_word_in_sentence : option Z;
  idx_phon_in_word : option Z;
  idx : option Z;
  allo_idx : option Z;
  phon_at_word_begin : bool;
  phon_at_word_end : bool;
  score : option Z;
  is_loop : bool
}.

(** Label placeholders. *)
Definition SIL : Label := LStr "_".
Definition EPS : Label := LStr "*".
Definition BLANK : Label := LStr "%".

(** [Edge(source_state_idx, target_state_idx, label, weight)] *)
Definition new_Edge (s t : Z) (l : Label) (w : Z) : Edge :=
  mkEdge s t l w None None None None None None false false None false.

(** Assignments to one attribute. *)
Definition set_source (v : Z) (e : Edge) : Edge :=
  mkEdge v (target_state_idx e) (label e) (weight e) (label_prev e) (label_next e)
    (idx_word_in_sentence e) (idx_phon_in_word e) (idx e) (allo_idx e)
    (phon_at_word_begin e) (phon_at_word_end e) (score e) (is_loop e).

Definition set_target (v : Z) (e : Edge) : Edge :=
  mkEdge (source_state_idx e) v (label e) (weight e) (label_prev e) (label_next e)
    (idx_word_in_sentence e) (idx_phon_in_word e) (idx e) (allo_idx e)
    (phon_at_word_begin e) (phon_at_word_end e) (score e) (is_loop e).

Definition set_label (v : Label) (e : Edge) : Edge :=
  mkEdge (source_state_idx e) (target_state_idx e) v (weight e) (label_prev e) (label_next e)
    (idx_word_in_sentence e) (idx_phon_in_word e) (idx e) (allo_idx e)
    (phon_at_word_begin e) (phon_at_word_end e) (score e) (is_loop e).

Definition set_allo_idx (v : option Z) (e : Edge) : Edge :=
  mkEdge (source_state_idx e) (target_state_idx e) (label e) (weight e) (label_prev e)
    (label_next e) (idx_word_in_sentence e) (idx_phon_in_word e) (idx e) v
    (phon_at_word_begin e) (phon_at_word_end e) (score e) (is_loop e).

Definition set_is_loop (v : bool) (e : Edge) : Edge :=
  mkEdge (source_state_idx e) (target_state_idx e) (label e) (weight e) (label_prev e)
    (label_next e) (idx_word_in_sentence e) (idx_phon_in_word e) (idx e) (allo_idx e)
    (phon_at_word_begin e) (phon_at_word_end e) (score e) v.

(** The annotations a builder writes after the construction of an edge. *)
Definition set_position (word phon i : Z) (first last : bool) (e : Edge) : Edge :=
  mkEdge (source_state_idx e) (target_state_idx e) (label e) (weight e) (label_prev e)
    (label_next e) (Some word) (Some phon) (Some i) (allo_idx e)
    first last (score e) (is_loop e).

Definition set_context (prev next : option string) (sc : option Z) (e : Edge) : Edge :=
  mkEdge (source_state_idx e) (target_state_idx e) (label e) (weight e) prev next
    (idx_word_in_sentence e) (idx_phon_in_word e) (idx e) (allo_idx e)
    (phon_at_word_begin e) (phon_at_word_end e) sc (is_loop e).

#[global] Instance Label_eq_dec : EqDecision Label.
Proof. solve_decision. Defined.

#[global] Instance Edge_eq_dec : EqDecision Edge.
Proof. solve_decision. Defined.

(** [Edge.as_tuple] *)
Definition as_tuple (e : Edge) : Z * Z * Label * Z :=
  (source_state_idx e, target_state_idx e, label e, weight e).

(** The order of Python 2 on labels: [None] is below every number, a number
    is below every [str], numbers by value, strings byte by byte. *)
Definition label_compare (a b : Label) : comparison :=
  match a, b with
  | LNone, LNone => Eq
  | LNone, _ => Lt
  | _, LNone => Gt
  | LInt x, LInt y => x ?= y
  | LInt _, LStr _ => Lt
  | LStr _, LInt _ => Gt
  | LStr s, LStr t => String.compare s t
  end.

(** The comparison of two tuples: the first component that differs decides. *)
Definition lex (c d : comparison) : comparison :=
  match c with Eq => d | _ => c end.

Definition tuple_compare (a b : Z * Z * Label * Z) : comparison :=
  let '(s1, t1, l1, w1) := a in
  let '(s2, t2, l2, w2) := b in
  lex (s1 ?= s2) (lex (t1 ?= t2) (lex (label_compare l1 l2) (w1 ?= w2))).

(** [Edge.__lt__], [Edge.__le__] and [Edge.__eq__] *)
Definition Edge_lt (a b : Edge) : bool :=
  match tuple_compare (as_tuple a) (as_tuple b) with Lt => true | _ => false end.

Definition Edge_le (a b : Edge) : bool :=
  match tuple_compare (as_tuple a) (as_tuple b) with Gt => false | _ => true end.

Definition Edge_eq (a b : Edge) : bool :=
  bool_decide (as_tuple a = as_tuple b).

(** [list.sort()] is a stable sort that compares with [__lt__] only.  On a
    list it returns the one stable arrangement of it, which insertion from
    the right computes: an element goes before the first element that is not
    below it. *)
Fixpoint sort_insert (x : Edge) (l : list Edge) : list Edge :=
  match l with
  | [] => [x]
  | y :: l' => if Edge_lt y x then y :: sort_insert x l' else x :: l
  end.

Fixpoint sort (l : list Edge) : list Edge :=
  match l with
  | [] => []
  | x :: l' => sort_insert x (sort l')
  end.

(** ** class Graph *)

Record Graph : Type := mkGraph {
  lemma : option string;
  lem_list : list string;
  filename : option string;
  num_states : Z;
  num_states_asg : Z;
  num_states_ctc : Z;
  num_states_hmm : Z;
  num_states_word : Z;
  edges : list Edge;
  edges_asg : list Edge;
  edges_ctc : list Edge;
  edges_hmm : list Edge;
  edges_word : list Edge
}.

(** The values a constructor is called with, by their Python type.  A
    [bool] is an [int] for [isinstance]. *)
Inductive PyVal : Type :=
  | PNone
  | PBool (b : bool)
  | PInt (z : Z)
  | PStr (s : string)
  | PList (l : list string)
  | PGraph (g : Graph).

(** [isinstance(v, int)], with the integer [v] is. *)
Definition as_int (v : PyVal) : option Z :=
  match v with
  | PInt z => Some z
  | PBool b => Some (if b then 1 else 0)
  | _ => None
  end.

(** [isinstance(v, bool)] *)
Definition as_bool (v : PyVal) : option bool :=
  match v with
  | PBool b => Some b
  | _ => None
  end.

(** [isinstance(v, Graph)] *)
Definition as_Graph (v : PyVal) : option Graph :=
  match v with
  | PGraph g => Some g
  | _ => None
  end.

Definition empty_Graph (lm : option string) (ll : list string) : Graph :=
  mkGraph lm ll None (-1) (-1) (-1) (-1) (-1) [] [] [] [] [].

(** [Graph.__init__] *)
Definition Graph_init (lemma : PyVal) : option Graph :=
  match lemma with
  | PStr s => Some (empty_Graph (Some (strip s)) (split_ws (lower (strip s))))
  | PList l => Some (empty_Graph None l)
  | _ => None
  end.

(** Assignments to the fields a builder writes. *)
Definition set_working (n : Z) (es : list Edge) (g : Graph) : Graph :=
  mkGraph (lemma g) (lem_list g) (filename g) n (num_states_asg g) (num_states_ctc g)
    (num_states_hmm g) (num_states_word g) es (edges_asg g) (edges_ctc g) (edges_hmm g)
    (edges_word g).

Definition set_asg (n : Z) (es : list Edge) (g : Graph) : Graph :=
  mkGraph (lemma g) (lem_list g) (filename g) (num_states g) n (num_states_ctc g)
    (num_states_hmm g) (num_states_word g) (edges g) es (edges_ctc g) (edges_hmm g)
    (edges_word g).

Definition set_ctc (n : Z) (es : list Edge) (g : Graph) : Graph :=
  mkGraph (lemma g) (lem_list g) (filename g) (num_states g) (num_states_asg g) n
    (num_states_hmm g) (num_states_word g) (edges g) (edges_asg g) es (edges_hmm g)
    (edges_word g).

Definition set_hmm (n : Z) (es : list Edge) (g : Graph) : Graph :=
  mkGraph (lemma g) (lem_list g) (filename g) (num_states g) (num_states_asg g)
    (num_states_ctc g) n (num_states_word g) (edges g) (edges_asg g) (edges_ctc g) es
    (edges_word g).

(** The common pattern of the loop synthesis and of the final-state
    unification: [for i in idxs: e = deepcopy(edges[i]); ...; edges.append(e)],
    where [f] is what is assigned to the copy. *)
Definition append_copies (f : Edge → Edge) (idxs : list nat) (es : list Edge) : list Edge :=
  fold_left (λ acc i, match acc !! i with Some e => acc ++ [f e] | None => acc end) idxs es.

(** [range(a, b)] *)
Definition range (a b : Z) : list Z := seqZ a (b - a).

(** A loop whose body can raise. *)
Fixpoint fold_leftM {A B : Type} (f : B → A → option B) (l : list A) (b : B) : option B :=
  match l with
  | [] => Some b
  | x :: l' => b' ← f b x; fold_leftM f l' b'
  end.

(** The truth value of an argument in [if v:]; an instance of [Graph] is
    true. *)
Definition truthy (v : PyVal) : bool :=
  match v with
  | PNone => false
  | PBool b => b
  | PInt z => negb (z =? 0)
  | PStr s => negb (bool_decide (s = EmptyString))
  | PList l => negb (bool_decide (l = []))
  | PGraph _ => true
  end.

(** What is read off a list of edges in the examples. *)
Definition tuples (es : list Edge) : list (Z * Z * Label * Z) := as_tuple <$> es.

(** ** class Store: the label conversion *)

Module Store.

(** One iteration of [label_conversion]: the label the edge gets, [None]
    when [ord] raises [TypeError] or the assertion fails. *)
Definition convert_label (lbl : Label) : option Label :=
  if decide (lbl = BLANK) then Some (LInt (ord " "))
  else if decide (lbl = SIL ∨ lbl = EPS) then Some lbl
  else match lbl with
       | LInt _ => Some lbl
       | LStr s => match chars s with
                   | [c] => Some (LInt (ord c))
                   | _ => None
                   end
       | LNone => None
       end.

(** [Store.label_conversion]: the edges are converted in place, in list
    order; an exception aborts the run that called it. *)
Definition label_conversion (edges : list Edge) : option (list Edge) :=
  mapM (λ e, l ← convert_label (label e); Some (set_label l e)) edges.

End Store.

(** ** class Asg *)

Module Asg.

Record t : Type := mk {
  num_labels : Z;
  asg_repetition : Z;
  label_conversion : bool;
  separator : bool
}.

(** [Asg.__init__]; the builder keeps a reference to the graph, which [run]
    receives here as its argument. *)
Definition init (fsa num_labels asg_repetition label_conversion : PyVal) : option (Graph * t) :=
  match as_Graph fsa, as_int num_labels, as_int asg_repetition, as_bool label_conversion with
  | Some g, Some n, Some r, Some c => Some (g, mk n r c false)
  | _, _, _, _ => None
  end.

(** The state of the first loop: [label_prev], [rep_count]. *)
Record scan : Type := mkScan {
  prev : option ascii;
  rep_count : Z
}.

(** One iteration of [for label in lem]: the new state and what is appended
    to [reps_label]. *)
Definition scan_label (a : t) (st : scan) (c : ascii) : scan * list Label :=
  if decide (Some c = prev st) then
    if rep_count st <? asg_repetition a then (mkScan (Some c) (rep_count st + 1), [])
    else (mkScan (Some c) 1, [LInt (num_labels a + rep_count st)])
  else
    (mkScan (Some c) 0,
     (if decide (rep_count st ≠ 0) then [LInt (num_labels a + rep_count st)] else [])
       ++ [LStr (str1 c)]).

(** [for label in lem], from [reps_label = []]. *)
Definition scan_word (a : t) (st : scan) (lem : string) : scan * list Label :=
  fold_left (λ acc c, let '(s, out) := scan_label a acc.1 c in (s, acc.2 ++ out))
    (chars lem) (st, []).

(** [for lem in self.fsa.lem_list], from [label_prev = None],
    [rep_count = 0] and [label_repetitions = []]. *)
Definition scan_words (a : t) (st : scan) (lems : list string) : scan * list (list Label) :=
  fold_left (λ acc lem, let '(s, reps) := scan_word a acc.1 lem in (s, acc.2 ++ [reps]))
    lems (st, []).

Definition label_repetitions (a : t) (g : Graph) : list (list Label) :=
  (scan_words a (mkScan None 0) (lem_list g)).2.

(** The state of the second loop. *)
Record build : Type := mkBuild {
  b_num_states : Z;
  cur_idx : Z;
  src_idx : Z;
  trgt_idx : Z;
  b_edges : list Edge
}.

(** One iteration of [for idx, lab in enumerate(rep_label)]. *)
Definition add_label (rep_index n : Z) (st : build) (il : Z * Label) : build :=
  let '(i, lab) := il in
  let src := cur_idx st in
  let trgt := src + 1 in
  let ns := (if cur_idx st =? 0 then b_num_states st + 1 else b_num_states st) + 1 in
  let edge := set_position rep_index i (cur_idx st) (i =? 0) (i =? n - 1)
                (new_Edge src trgt lab 0) in
  mkBuild ns (cur_idx st + 1) src trgt (b_edges st ++ [edge]).

(** One iteration of [for rep_index, rep_label in enumerate(label_repetitions)];
    [m] is [len(label_repetitions)]. *)
Definition add_word (a : t) (m : Z) (st : build) (ir : Z * list Label) : build :=
  let '(rep_index, rep_label) := ir in
  let st1 := fold_left (add_label rep_index (len rep_label)) (enumerate rep_label) st in
  if separator a && (rep_index <? m - 1) then
    mkBuild (b_num_states st1 + 1) (cur_idx st1 + 1) (src_idx st1) (trgt_idx st1)
      (b_edges st1 ++ [new_Edge (src_idx st1 + 1) (trgt_idx st1 + 1) BLANK 0])
  else st1.

(** The creation of the states, from [num_states = 0] and the edges the
    graph holds. *)
Definition create_states (a : t) (g : Graph) : build :=
  let reps := label_repetitions a g in
  fold_left (add_word a (len reps)) (enumerate reps) (mkBuild 0 0 0 0 (edges g)).

(** [deepcopy(edge)] with the two assignments of the loop synthesis. *)
Definition loop_copy (e : Edge) : Edge :=
  set_is_loop true (set_source (target_state_idx e) e).

Definition wants_loop (loop_idx : Z) (e : Edge) : bool :=
  bool_decide (target_state_idx e = loop_idx)
  && bool_decide (label e ≠ EPS) && bool_decide (label e ≠ SIL).

(** [for loop_idx in range(1, self.fsa.num_states)] *)
Definition add_loops (ns : Z) (es : list Edge) : list Edge :=
  fold_left (λ acc loop_idx, append_copies loop_copy (indices_where (wants_loop loop_idx) acc) acc)
    (range 1 ns) es.

(** The working fields at the end of [run], before they are copied into
    the fields of the topology: [fsa.num_states] and [fsa.edges]. *)
Definition working (a : t) (g : Graph) : option (Z * list Edge) :=
  let st := create_states a g in
  let es := sort (add_loops (b_num_states st) (b_edges st)) in
  es' ← (if label_conversion a then Store.label_conversion es else Some es);
  Some (b_num_states st, es').

(** [Asg.run] *)
Definition run (a : t) (g : Graph) : option Graph :=
  w ← working a g;
  Some (set_working (-1) [] (set_asg w.1 w.2 (set_working w.1 w.2 g))).

End Asg.

(** ** class Ctc *)

Module Ctc.

(** [label_conversion] is only required to be an [int]; [run] tests its
    truth value. *)
Record t : Type := mk {
  num_labels : Z;
  label_conversion : Z;
  final_states : list Z
}.

(** [Ctc.__init__] *)
Definition init (fsa num_labels label_conversion : PyVal) : option (Graph * t) :=
  g ← as_Graph fsa;
  n ← as_int num_labels;
  c ← as_int label_conversion;
  Some (g, mk n c []).

(** The state of the first loop: [fsa.num_states], [cur_idx], [fsa.edges]. *)
Record build : Type := mkBuild {
  b_num_states : Z;
  cur_idx : Z;
  b_edges : list Edge
}.

(** [seq[i] != seq[i - 1] or len(seq) == 1]: the test that the direct edge
    is appended.  For [i = 0] the index [i - 1] is [-1], the last label of
    [seq]. *)
Definition direct_edge_wanted (seq : list ascii) (i : Z) : bool :=
  bool_decide (py_index seq i ≠ py_index seq (i - 1)) || (len seq =? 1).

(** One iteration of [for i, label in enumerate(seq)]. *)
Definition add_label (word_idx : Z) (seq : list ascii) (st : build) (il : Z * ascii) : build :=
  let '(i, lab) := il in
  let src := 2 * cur_idx st in
  let ns := if cur_idx st =? 0 then b_num_states st + 1 else b_num_states st in
  let trgt := src + 2 in
  let e_norm := set_position word_idx i (cur_idx st) false false
                  (new_Edge src trgt (LStr (str1 lab)) 0) in
  let e_blank := new_Edge src (trgt - 1) BLANK 0 in
  let e_rep := set_source (src + 1) e_norm in
  mkBuild (ns + 2) (cur_idx st + 1)
    (b_edges st ++ (if direct_edge_wanted seq i then [e_norm] else []) ++ [e_blank; e_rep]).

(** One iteration of [for idx, seq in enumerate(self.fsa.lem_list)]; [m] is
    [len(self.fsa.lem_list)]. *)
Definition add_word (m : Z) (st : build) (iw : Z * string) : build :=
  let '(word_idx, seq) := iw in
  let st1 := fold_left (add_label word_idx (chars seq)) (enumerate (chars seq)) st in
  if word_idx <? m - 1 then
    let c := cur_idx st1 in
    mkBuild (b_num_states st1 + 2) (c + 1)
      (b_edges st1 ++ [new_Edge (2 * c) (2 * c + 1) BLANK 0;
                        new_Edge (2 * c + 1) (2 * c + 2) SIL 0;
                        new_Edge (2 * c) (2 * c + 2) SIL 0])
  else st1.

(** The lattice, from [num_states = 0], [cur_idx = 0] and the edges the
    graph holds. *)
Definition lattice (g : Graph) : build :=
  fold_left (add_word (len (lem_list g))) (enumerate (lem_list g)) (mkBuild 0 0 (edges g)).

(** [self.fsa.lem_list[-1][-1]] *)
Definition last_label (g : Graph) : option Label :=
  w ← py_index (lem_list g) (-1);
  c ← py_index (chars w) (-1);
  Some (LStr (str1 c)).

(** "add all final possibilities": the three tail edges. *)
Definition add_tail (g : Graph) (ns : Z) (es : list Edge) : option (Z * list Edge) :=
  lab ← last_label g;
  Some (ns + 3, es ++ [new_Edge (ns - 3) ns BLANK 1;
                        new_Edge (ns + 1) (ns + 2) BLANK 1;
                        new_Edge ns (ns + 1) lab 1]).

(** One iteration of [for fstate in self.final_states]; [ns] is the count
    that includes the new final node. *)
Definition unify_final_state (ns : Z) (es : list Edge) (fstate : Z) : option (list Edge) :=
  let final_state_idx_list :=
    indices_where (λ e, bool_decide (target_state_idx e = fstate)) es in
  i0 ← final_state_idx_list !! 0%nat;
  e0 ← es !! i0;
  let final_state_node := new_Edge fstate (ns - 1) (label e0) 0 in
  Some (append_copies (set_target (ns - 1)) final_state_idx_list (es ++ [final_state_node])).

(** "make single final node" *)
Definition single_final_node (fs : list Z) (ns : Z) (es : list Edge) : option (Z * list Edge) :=
  if negb (bool_decide (len fs = 1) && bool_decide (py_index fs 0 = Some (ns - 1))) then
    es' ← fold_leftM (unify_final_state (ns + 1)) fs es;
    Some (ns + 1, es')
  else Some (ns, es).

Definition loop_copy (e : Edge) : Edge :=
  set_is_loop true (set_source (target_state_idx e) e).

(** One iteration of [for loop_idx in range(1, self.fsa.num_states - 1)]:
    only [edges_add_loop[0]] gets a loop. *)
Definition add_loop (es : list Edge) (loop_idx : Z) : option (list Edge) :=
  let edges_add_loop :=
    indices_where (λ e, bool_decide (target_state_idx e = loop_idx)) es in
  i0 ← edges_add_loop !! 0%nat;
  e0 ← es !! i0;
  Some (es ++ [loop_copy e0]).

(** The builder and the working fields at the end of [run], before the
    fields are copied. *)
Definition working (c : t) (g : Graph) : option (t * (Z * list Edge)) :=
  let st := lattice g in
  let fs1 := final_states c ++ [b_num_states st - 1] in
  '(ns2, es2) ← add_tail g (b_num_states st) (b_edges st);
  let fs2 := fs1 ++ [ns2 - 1] in
  '(ns3, es3) ← single_final_node fs2 ns2 es2;
  es4 ← fold_leftM add_loop (range 1 (ns3 - 1)) es3;
  es5 ← (if negb (label_conversion c =? 0) then Store.label_conversion es4 else Some es4);
  Some (mk (num_labels c) (label_conversion c) fs2, (ns3, sort es5)).

(** [Ctc.run] *)
Definition run (c : t) (g : Graph) : option (t * Graph) :=
  '(c', w) ← working c g;
  Some (c', set_working (-1) [] (set_ctc w.1 w.2 (set_working w.1 w.2 g))).

End Ctc.

(** ** class Hmm *)

Module Hmm.

(** The collaborators, which [LmDataset] supplies: of a [Lexicon], the
    table [lemmas[word]['phons']], a list of pairs of the entries ['phon']
    and ['score']; of a [StateTying], the table [allo_map]. *)
Abbreviation Lexicon := (gmap string (list (string * Z))).
Abbreviation StateTying := (gmap string Z).

Record t : Type := mk {
  depth : Z;
  allo_num_states : Z;
  state_tying_conversion : bool;
  lexicon : option Lexicon;
  state_tying : option StateTying
}.

(** [Hmm.__init__]; [state_tying_conversion] is kept unchecked, and [run]
    tests its truth value. *)
Definition init (fsa depth allo_num_states state_tying_conversion : PyVal) : option (Graph * t) :=
  match as_Graph fsa, as_int depth, as_int allo_num_states with
  | Some g, Some d, Some k => Some (g, mk d k (truthy state_tying_conversion) None None)
  | _, _, _ => None
  end.

(** [Hmm._find_node_in_edges]: the dictionary from the index of an edge to
    0 (the node is its source), 1 (its target) or 2 (both). *)
Definition find_node_in_edges (node : Z) (edges : list Edge) : gmap nat Z :=
  let pos_start := indices_where (λ e, bool_decide (source_state_idx e = node)) edges in
  let pos_end := indices_where (λ e, bool_decide (target_state_idx e = node)) edges in
  let pos_start_end :=
    indices_where (λ e, bool_decide (source_state_idx e = node)
                        && bool_decide (target_state_idx e = node)) edges in
  let d0 := fold_left (λ d pos, <[pos := 0]> d) pos_start (∅ : gmap nat Z) in
  let d1 := fold_left (λ d pos, <[pos := 1]> d) pos_end d0 in
  fold_left (λ d pos, <[pos := 2]> d) pos_start_end d1.

(** [str(x)] and the [%s] of a format, for a label and for an annotation. *)
Definition str_of_label (l : Label) : string :=
  match l with
  | LNone => "None"
  | LInt z => pretty z
  | LStr s => s
  end.

Definition str_of_context (c : option string) : string :=
  match c with
  | None => "None"
  | Some s => s
  end.

(** [Hmm._build_allo_syntax_for_mapping] *)
Definition build_allo_syntax_for_mapping (edge : Edge) : string :=
  let allo_map :=
    if decide (label edge = SIL) then "[SILENCE]{#+#}"
    else if decide (label edge = EPS) then "*"
    else
      let l := str_of_label (label edge) in
      if decide (label_prev edge = Some EmptyString ∧ label_next edge = Some EmptyString)
      then l +:+ "{#+#}"
      else if decide (label_prev edge = Some EmptyString)
      then l +:+ "{#+" +:+ str_of_context (label_next edge) +:+ "}"
      else if decide (label_next edge = Some EmptyString)
      then l +:+ "{" +:+ str_of_context (label_prev edge) +:+ "+#}"
      else l +:+ "{" +:+ str_of_context (label_prev edge) +:+ "+"
             +:+ str_of_context (label_next edge) +:+ "}" in
  let allo_map := if phon_at_word_begin edge then allo_map +:+ "@i" else allo_map in
  let allo_map := if phon_at_word_end edge then allo_map +:+ "@f" else allo_map in
  if decide (label edge = SIL) then allo_map +:+ ".0"
  else if decide (label edge = EPS) then allo_map
  else match allo_idx edge with
       | Some i => allo_map +:+ "." +:+ pretty i
       | None => allo_map
       end.

(** The state of the first loop; [target_node] is unbound until a phoneme
    has been read. *)
Record build : Type := mkBuild {
  b_num_states : Z;
  split_node : Z;
  merge_node : Z;
  target_node : option Z;
  b_edges : list Edge
}.

(** One iteration of [for phon_idx, phon in enumerate(lem)]. *)
Definition add_phon (word_idx phon_dict_len lemma_idx : Z) (lem : list string) (sc : Z)
    (st : build) (ip : Z * string) : build :=
  let '(phon_idx, phon) := ip in
  let ns := b_num_states st in
  let first := phon_idx =? 0 in
  let last := phon_idx =? len lem - 1 in
  let '(ns', split, merge, source, target) :=
    if phon_dict_len =? 1 then (ns + 1, split_node st, merge_node st, ns, ns + 1)
    else
      let split := if (lemma_idx =? 0) && first then ns else split_node st in
      let merge := if (lemma_idx =? 0) && last then ns + 1 else merge_node st in
      if lemma_idx =? 0 then (ns + 1, split, merge, ns, ns + 1)
      else
        let ns1 := if first then ns else ns + 1 in
        (ns1, split, merge, (if first then split else ns1), (if last then merge else ns1 + 1)) in
  let phon_edge :=
    set_position word_idx phon_idx (ns' + phon_idx) first last
      (set_context (if first then Some EmptyString else py_index lem (phon_idx - 1))
                   (if last then Some EmptyString else py_index lem (phon_idx + 1))
                   (if first then Some sc else None)
                   (new_Edge source target (LStr phon) 0)) in
  mkBuild ns' split merge (Some target) (b_edges st ++ [phon_edge]).

(** One iteration of [for lemma_idx, lemma in enumerate(self.phon_dict[word])]. *)
Definition add_lemma (word_idx phon_dict_len : Z) (st : build) (il : Z * (string * Z)) : build :=
  let '(lemma_idx, (phon, sc)) := il in
  let lem := split_space phon in
  fold_left (add_phon word_idx phon_dict_len lemma_idx lem sc) (enumerate lem) st.

(** One iteration of [for word_idx, word in enumerate(self.fsa.lem_list)]:
    [KeyError] when the lexicon has not the word, [NameError] when
    [target_node] is read unbound. *)
Definition add_word (lex : Lexicon) (st : build) (iw : Z * string) : option build :=
  let '(word_idx, word) := iw in
  let st0 :=
    if word_idx =? 0 then
      mkBuild (b_num_states st + 2) (split_node st) (merge_node st) (target_node st)
        (b_edges st ++ [new_Edge 0 1 SIL 0; new_Edge 0 1 EPS 0])
    else st in
  phons ← lex !! word;
  let st1 := fold_left (add_lemma word_idx (len phons)) (enumerate phons) st0 in
  tn ← target_node st1;
  Some (mkBuild (b_num_states st1 + 1) (split_node st1) (merge_node st1) (target_node st1)
          (b_edges st1 ++ [new_Edge tn (b_num_states st1 + 1) SIL 0;
                            new_Edge tn (b_num_states st1 + 1) EPS 0])).

(** The words and the final node.  [run] starts from the [num_states] the
    graph holds (it assigns 0 to [num_states_hmm]), which is -1 after
    [Graph.__init__] and after every [run]. *)
Definition word_states (h : t) (g : Graph) : option (Z * list Edge) :=
  lex ← lexicon h;
  st ← fold_leftM (add_word lex) (enumerate (lem_list g))
         (mkBuild (num_states g) 0 0 None (edges g));
  Some (b_num_states st + 1, b_edges st).

(** One iteration of [for state in range(self.allo_num_states)] for the
    edge at hand: the count, the edge, and [edges_allo_tmp]. *)
Definition allo_state (k allo_target_idx : Z) (st : Z * Edge * list Edge) (state : Z)
    : Z * Edge * list Edge :=
  let '(ns, edge, tmp) := st in
  if state =? 0 then (ns, set_allo_idx (Some state) (set_target ns edge), tmp)
  else if state =? k - 1 then
    (ns + 1, edge,
     tmp ++ [set_target allo_target_idx (set_source ns (set_allo_idx (Some state) edge))])
  else
    (ns + 1, edge,
     tmp ++ [set_target (ns + 1) (set_source ns (set_allo_idx (Some state) edge))]).

(** One iteration of [for edge in self.fsa.edges]: the count, the edges
    already visited, and [edges_allo_tmp]. *)
Definition allo_edge (k : Z) (st : Z * list Edge * list Edge) (edge : Edge)
    : Z * list Edge * list Edge :=
  let '(ns, done, tmp) := st in
  if bool_decide (label edge ≠ SIL) && bool_decide (label edge ≠ EPS) then
    let '(ns', edge', tmp') :=
      fold_left (allo_state k (target_state_idx edge)) (range 0 k) (ns, edge, tmp) in
    (ns', done ++ [edge'], tmp')
  else (ns, done ++ [edge], tmp).

(** The allophone expansion. *)
Definition allo_expand (k ns : Z) (es : list Edge) : Z * list Edge :=
  if k >? 1 then
    let '(ns', done, tmp) := fold_left (allo_edge k) es (ns, [], []) in
    (ns', done ++ tmp)
  else (ns, es).

(** One iteration of [for edge_key in d.keys()] of the renumbering: the
    assignment of [to] that the value under the key selects; [None] is the
    failed assertion. *)
Definition relabel_at (to : Z) (es : list Edge) (kv : nat * Z) : option (list Edge) :=
  let '(edge_key, v) := kv in
  if v =? 0 then Some (alter (set_source to) edge_key es)
  else if v =? 1 then Some (alter (set_target to) edge_key es)
  else if v =? 2 then Some (alter (λ e, set_target to (set_source to e)) edge_key es)
  else None.

(** The body of [if cur_source_state > cur_target_state]: both dictionaries
    are computed first, then the two loops run. *)
Definition swap_states (cur_source_state cur_target_state : Z) (es : list Edge)
    : option (list Edge) :=
  let edges_with_cur_source_state := find_node_in_edges cur_source_state es in
  let edges_with_cur_target_state := find_node_in_edges cur_target_state es in
  es1 ← fold_leftM (relabel_at cur_target_state) (map_to_list edges_with_cur_source_state) es;
  fold_leftM (relabel_at cur_source_state) (map_to_list edges_with_cur_target_state) es1.

(** [while sort_idx < len(self.fsa.edges)], one iteration for one unit of
    fuel; [None] when the fuel is used up.  After a swap [sort_idx] is set
    to 0 and then incremented with every other iteration. *)
Fixpoint renumber (fuel : nat) (sort_idx : nat) (es : list Edge) : option (list Edge) :=
  match fuel with
  | O => None
  | S fuel' =>
      match es !! sort_idx with
      | None => Some es
      | Some e =>
          let cur_source_state := source_state_idx e in
          let cur_target_state := target_state_idx e in
          if cur_source_state >? cur_target_state then
            es' ← swap_states cur_source_state cur_target_state es;
            renumber fuel' (0 + 1) es'
          else renumber fuel' (sort_idx + 1) es
      end
  end.

(** [deepcopy(edge)] with the assignment of the loop synthesis; [is_loop]
    is not set here. *)
Definition loop_copy (e : Edge) : Edge := set_source (target_state_idx e) e.

Definition wants_loop (state : Z) (e : Edge) : bool :=
  bool_decide (target_state_idx e = state) && bool_decide (label e ≠ EPS).

(** [for state in range(1, self.fsa.num_states)] *)
Definition add_loops (ns : Z) (es : list Edge) : list Edge :=
  fold_left (λ acc state, append_copies loop_copy (indices_where (wants_loop state) acc) acc)
    (range 1 ns) es.

(** One iteration of the last loop: the label becomes the allophone syntax
    and, on request, the number the state tying has for it.  A missing
    entry is printed and the label stays; [None] is the [AttributeError] of
    a builder without state tying. *)
Definition tie_label (h : t) (edge : Edge) : option Edge :=
  let allo_syntax := build_allo_syntax_for_mapping edge in
  let edge := set_label (LStr allo_syntax) edge in
  if state_tying_conversion h then
    if decide (label edge = EPS) then Some edge
    else
      st ← state_tying h;
      match st !! allo_syntax with
      | Some allo_id => Some (set_label (LInt allo_id) edge)
      | None => Some edge
      end
  else Some edge.

(** The edges before the renumbering. *)
Definition expanded (h : t) (g : Graph) : option (Z * list Edge) :=
  '(ns, es) ← word_states h g;
  Some (allo_expand (allo_num_states h) ns es).

(** The working fields at the end of [run]. *)
Definition working (fuel : nat) (h : t) (g : Graph) : option (Z * list Edge) :=
  '(ns, es) ← expanded h g;
  es1 ← renumber fuel 0 es;
  es2 ← mapM (tie_label h) (add_loops ns es1);
  Some (ns, sort es2).

(** [Hmm.run] *)
Definition run (fuel : nat) (h : t) (g : Graph) : option Graph :=
  w ← working fuel h g;
  Some (set_working (-1) [] (set_hmm w.1 w.2 (set_working w.1 w.2 g))).

End Hmm.

(** ** Graph.make_single_state_graph, over a store of objects

    The one function whose contract is about aliasing: the [Edge] objects
    live in a store, a reference is an index into it, a list of edges is a
    list of references, and an allocation appends to the store. *)

Module Heap.

Abbreviation store := (list Edge).

(** [deepcopy] of one reference, with the memo of the objects that have
    been copied: an object is copied once, however often it occurs.
    [None] is a reference to no object. *)
Definition deepcopy_ref (h : store) (memo : gmap nat nat) (r : nat)
    : option (store * gmap nat nat * nat) :=
  match memo !! r with
  | Some r' => Some (h, memo, r')
  | None => e ← h !! r; Some (h ++ [e], <[r := length h]> memo, length h)
  end.

(** [deepcopy(edges)] *)
Fixpoint deepcopy_refs (h : store) (memo : gmap nat nat) (rs : list nat)
    : option (store * gmap nat nat * list nat) :=
  match rs with
  | [] => Some (h, memo, [])
  | r :: rs' =>
      '(h1, memo1, r') ← deepcopy_ref h memo r;
      '(h2, memo2, rs'') ← deepcopy_refs h1 memo1 rs';
      Some (h2, memo2, r' :: rs'')
  end.

(** The two assignments of the loop. *)
Definition to_state_0 (e : Edge) : Edge := set_target 0 (set_source 0 e).

(** [Graph.make_single_state_graph]: the store after the call and the list
    returned. *)
Definition make_single_state_graph (num_states : Z) (h : store) (edges : list nat)
    : option (store * list nat) :=
  '(h1, _, edges_single_state) ← deepcopy_refs h ∅ edges;
  if num_states >? 1 then
    Some (fold_left (λ acc edge, alter to_state_0 edge acc) edges_single_state h1,
          edges_single_state)
  else Some (h1, edges_single_state).

(** The edges a list of references stands for. *)
Definition deref (h : store) (rs : list nat) : list (option Edge) := (λ r, h !! r) <$> rs.

End Heap.

(** ** numpy arrays of dtype int32, as far as [FastBwFsaShared] uses them

    An array of shape [(4, n)] or [(2, n)] is the list of its [n] columns,
    and a column holds the integers that are stored in it.  What numpy
    stores when a tuple of Python values is assigned to a column of an
    [int32] array is not written in [Fsa.py]: integers in the range of
    [int32] are stored as they are; an integer out of the range, or a label
    that is no integer, is stored wrapped around or converted, or raises,
    as the version of numpy has it.  The conversion is therefore a
    parameter of the functions that fill an array, with [None] for an
    exception, and the properties assume of it only what it does with
    integers in the range. *)

(** A column of the array of edges: (from, to, emission_idx, sequence_idx). *)
Definition column : Type := Z * Z * Z * Z.

Record Numpy : Type := mkNumpy {
  int32_column : Z * Z * Label * Z → option column;
  int32_pair : Z * Z → option (Z * Z)
}.

(** [numpy.zeros] along the axis of variable length: [ValueError] for a
    negative length. *)
Definition np_zeros {A : Type} (zero : A) (n : Z) : option (list A) :=
  if n <? 0 then None else Some (replicate (Z.to_nat n) zero).

(** [res[:, j] = v] for a column [v] that has been converted: a negative
    index counts from the end, and [None] is the [IndexError] of an index
    out of bounds. *)
Definition np_set {A : Type} (res : list A) (j : Z) (v : A) : option (list A) :=
  if (0 <=? j) && (j <? len res) then Some (<[Z.to_nat j := v]> res)
  else if (j <? 0) && (0 <=? len res + j) then Some (<[Z.to_nat (len res + j) := v]> res)
  else None.

(** ** class FastBwFsaShared *)

Module FastBwFsaShared.

Record t : Type := mk {
  num_states : Z;
  edges : list Edge
}.

(** [FastBwFsaShared.__init__] *)
Definition init : t := mk 1 [].

(** [add_edge]: the emission index is the label of the edge. *)
Definition add_edge (f : t) (source target emission_idx weight : Z) : t :=
  let edge := new_Edge source target (LInt emission_idx) weight in
  mk (Z.max (Z.max (num_states f) (source_state_idx edge + 1)) (target_state_idx edge + 1))
     (edges f ++ [edge]).

(** [add_inf_loop], with the default weight of [add_edge]. *)
Definition add_inf_loop (f : t) (state_idx num_emission_labels : Z) : t :=
  fold_left (λ f emission_idx, add_edge f state_idx state_idx emission_idx 0)
    (range 0 num_emission_labels) f.

(** [get_num_edges] *)
Definition get_num_edges (f : t) (n_batch : Z) : Z := len (edges f) * n_batch.

(** [get_edges]: the tuple of an edge is converted and written into its
    column; an exception of either step ends the call. *)
Definition get_edges (np : Numpy) (f : t) (n_batch : Z) : option (list column) :=
  let num_edges := len (edges f) in
  res ← np_zeros (0, 0, 0, 0) (num_edges * n_batch);
  fold_leftM (λ res batch_idx,
      fold_leftM (λ res (ie : Z * Edge),
          let '(edge_idx, edge) := ie in
          col ← int32_column np
                  (source_state_idx edge + batch_idx * num_states f,
                   target_state_idx edge + batch_idx * num_states f,
                   label edge,
                   batch_idx);
          np_set res (batch_idx * num_edges + edge_idx) col)
        (enumerate (edges f)) res)
    (range 0 n_batch) res.

(** [get_start_end_states] *)
Definition get_start_end_states (np : Numpy) (f : t) (n_batch : Z) : option (list (Z * Z)) :=
  let start_state_idx := 0 in
  let end_state_idx := num_states f - 1 in
  res ← np_zeros (0, 0) n_batch;
  fold_leftM (λ res batch_idx,
      col ← int32_pair np
              (start_state_idx + batch_idx * num_states f,
               end_state_idx + batch_idx * num_states f);
      np_set res batch_idx col)
    (range 0 n_batch) res.

End FastBwFsaShared.

(** ** class AllPossibleWordsFsa *)

Module AllPossibleWordsFsa.

Record t : Type := mk {
  lexicon : option Hmm.Lexicon
}.

(** [AllPossibleWordsFsa.__init__] checks nothing: whatever [fsa] is, it is
    kept, and [run] receives it here as its argument. *)
Definition init (fsa : PyVal) : PyVal * t := (fsa, mk None).

(** The two assignments to the fields of the graph. *)
Definition set_word (n : Z) (es : list Edge) (g : Graph) : Graph :=
  mkGraph (lemma g) (lem_list g) (filename g) (num_states g) (num_states_asg g)
    (num_states_ctc g) (num_states_hmm g) n (edges g) (edges_asg g) (edges_ctc g)
    (edges_hmm g) es.

(** [AllPossibleWordsFsa.run].  [iteritems] goes through the dictionary in
    an order that Python leaves open; the order of [map_to_list] stands for
    it, and no property depends on it.  [None] is the [AttributeError] of
    a builder without lexicon, or of an [fsa] that is no graph. *)
Definition run (a : t) (fsa : PyVal) : option Graph :=
  lex ← lexicon a;
  g ← as_Graph fsa;
  let edges_word :=
    fold_left (λ acc (kv : string * list (string * Z)), acc ++ [new_Edge 0 0 (LStr kv.1) 0])
      (map_to_list lex) (edges_word g) in
  Some (set_word 1 edges_word g).

End AllPossibleWordsFsa.

(** ** load_lexicon: the name of the pickled lexicon *)

Fixpoint drop_chars (set : list ascii) (l : list ascii) : list ascii :=
  match l with
  | [] => []
  | c :: l' => if bool_decide (c ∈ set) then drop_chars set l' else l
  end.

(** [s.rstrip(set)]: the characters of [set] are removed from the end of
    [s], as long as there are any. *)
Definition rstrip (set : string) (s : string) : string :=
  string_of_list_ascii (rev (drop_chars (chars set) (rev (chars s)))).

(** [lexicon_name.rstrip('\.gz') + '.pickle']: the argument of [rstrip] is a
    set of four characters, the backslash among them. *)
Definition lexicon_dumpname (lexicon_name : string) : string :=
  rstrip "\.gz" lexicon_name +:+ ".pickle".

(** ** What the properties speak of *)

(** The state indices a list of edges refers to, its largest one, and the
    lists without an edge that goes backwards. *)
Definition states_of (es : list Edge) : list Z :=
  es ≫= (λ e, [source_state_idx e; target_state_idx e]).

Definition max_state_idx (es : list Edge) : option Z :=
  match states_of es with
  | [] => None
  | s :: l => Some (foldr Z.max s l)
  end.

Definition monotone (es : list Edge) : Prop :=
  Forall (λ e, source_state_idx e ≤ target_state_idx e) es.

(** The renaming of the states of an edge; nothing else of it changes. *)
Definition relabel (f : Z → Z) (e : Edge) : Edge :=
  set_target (f (target_state_idx e)) (set_source (f (source_state_idx e)) e).

(** The order the edges are sorted in, [Edge.__le__] as a relation. *)
Definition edge_le (a b : Edge) : Prop := Edge_le a b = true.

(** The fields of a graph that a builder has not cleared: after
    [Graph.__init__] and after every [run] they are -1 and the empty list. *)
Definition clean (g : Graph) : Prop := num_states g = -1 ∧ edges g = [].

(** The graph, and the builder, after a [run] that returned. *)
Definition graph_after (r : option Graph) : Graph := default (empty_Graph None []) r.

Definition ctc_after (r : option (Ctc.t * Graph)) : Ctc.t * Graph :=
  default (Ctc.mk 0 0 [], empty_Graph None []) r.

(** The builders and the lexicon of the examples: [Asg] and [Ctc] with
    their default arguments, [Hmm] with three allophone states over a
    lexicon in which "a" has one pronunciation and "ab" has three. *)
Definition example_asg : Asg.t := Asg.mk 256 2 false false.
Definition example_ctc : Ctc.t := Ctc.mk 256 0 [].
Definition example_lexicon : Hmm.Lexicon :=
  <["a" := [("ey", 0)]]> {[ "ab" := [("ey b iy", 0); ("ah b", 1); ("x", 2)] ]}.
Definition example_hmm : Hmm.t := Hmm.mk 6 3 false (Some example_lexicon) None.
Definition example_graph : Graph := empty_Graph None ["ab"; "a"].

(** What holds of the store and the memo while [deepcopy] runs on the
    store [h0]: the store extends [h0], and the memo sends objects of [h0]
    to copies of them allocated behind [h0]. *)
Definition copying (h0 h : list Edge) (memo : gmap nat nat) : Prop :=
  (∀ r, (r < length h0)%nat → h !! r = h0 !! r)
  ∧ (length h0 ≤ length h)%nat
  ∧ ∀ r r', memo !! r = Some r' →
      (length h0 ≤ r' < length h)%nat ∧ h !! r' = h0 !! r.

(** What the label conversion of [Asg.run] needs of the sorted edges:
    edges into the same state carry the same label. *)
Definition same_target_same_label (es : list Edge) : Prop :=
  ∀ e1 e2, e1 ∈ es → e2 ∈ es →
    target_state_idx e1 = target_state_idx e2 → label e1 = label e2.

(** What holds while [Asg.run] creates the states. *)
Definition asg_creating (st : Asg.build) : Prop :=
  same_target_same_label (Asg.b_edges st)
  ∧ (∀ e, e ∈ Asg.b_edges st → target_state_idx e ≤ Asg.cur_idx st)
  ∧ Asg.trgt_idx st ≤ Asg.cur_idx st
  ∧ (∀ e, e ∈ Asg.b_edges st → target_state_idx e = Asg.trgt_idx st + 1 → label e = BLANK).

(** ** What the renumbering of [Hmm.run] is measured with *)

(** The exchange of the two states [a] and [b]. *)
Definition transp (a b x : Z) : Z :=
  if decide (x = a) then b else if decide (x = b) then a else x.

(** The value [_find_node_in_edges] stores for one edge, and the
    assignments the loop over the dictionary makes for it. *)
Definition node_code (node : Z) (e : Edge) : option Z :=
  if bool_decide (source_state_idx e = node) && bool_decide (target_state_idx e = node)
  then Some 2
  else if bool_decide (target_state_idx e = node) then Some 1
  else if bool_decide (source_state_idx e = node) then Some 0
  else None.

Definition apply_code (to : Z) (v : Z) (e : Edge) : Edge :=
  if v =? 0 then set_source to e
  else if v =? 1 then set_target to e
  else set_target to (set_source to e).

(** A ranking of the states: every edge goes up in rank.  A list of edges
    has one exactly when it has no cycle. *)
Definition ranked (rk : Z → Z) (es : list Edge) : Prop :=
  ∀ e, e ∈ es → rk (source_state_idx e) < rk (target_state_idx e).

(** The sum of [s * rk s] over the states below [n]: it grows with every
    swap of the renumbering. *)
Fixpoint phi (rk : Z → Z) (n : nat) : Z :=
  match n with
  | O => 0
  | S k => phi rk k + Z.of_nat k * rk (Z.of_nat k)
  end.

(** The edges into states 0 and 1: none into 0, and into 1 only edges from
    0 with the silence or the epsilon label, as the first word adds them. *)
Definition entry_ok (e : Edge) : Prop :=
  2 ≤ target_state_idx e
  ∨ (source_state_idx e = 0 ∧ target_state_idx e = 1 ∧ (label e = SIL ∨ label e = EPS)).

(** The first edge goes from state 0 to state 1. *)
Definition head_ok (es : list Edge) : Prop :=
  ∃ e l, es = e :: l ∧ source_state_idx e = 0 ∧ target_state_idx e = 1.

(** The edges use the states up to [top], go up in rank, and respect the
    entry. *)
Definition rank_ok (top : Z) (rk : Z → Z) (es : list Edge) : Prop :=
  ranked rk es
  ∧ ∀ e, e ∈ es →
      0 ≤ source_state_idx e ≤ top ∧ 0 ≤ target_state_idx e ≤ top ∧ entry_ok e.

(** What the renumbering starts from in [Hmm.run], for [n] states and a
    ranking [rk] of them. *)
Definition pass_inv (n : nat) (rk : Z → Z) (es : list Edge) : Prop :=
  head_ok es ∧ rank_ok (Z.of_nat n - 1) rk es.

(** [f] renames the states below [n] among themselves, with inverse [g]. *)
Definition renaming (n : Z) (f g : Z → Z) : Prop :=
  (∀ x, g (f x) = x) ∧ (∀ x, f (g x) = x) ∧ (∀ x, 0 ≤ x < n ↔ 0 ≤ f x < n).

(** ** What holds while [Hmm.run] builds the edges *)

(** The bound on the number of phonemes of a pronunciation of a word. *)
Definition variant_bound (phons : list (string * Z)) : Z :=
  foldr (λ p acc, Z.max (len (split_space p.1)) acc) 1 phons.

(** Between two phonemes of a pronunciation: [pdl] is the number of
    pronunciations of the word, [j] the index of the pronunciation, [k] the
    number of its phonemes, [i] the number of phonemes read, [L] the bound
    of the word.  The states in use end at [top], which is one ahead of
    [num_states] inside a pronunciation that is not the first; the
    ranking counts the phonemes from the split state, and puts the merge
    state [L] above it. *)
Definition hmm_phon_inv (pdl j k L i : Z) (st : Hmm.build) : Prop :=
  let ns := Hmm.b_num_states st in
  let later := negb (pdl =? 1) && negb (j =? 0) in
  let top := if later && (0 <? i) && (i <? k) then ns + 1 else ns in
  ∃ rk : Z → Z,
    head_ok (Hmm.b_edges st)
    ∧ rank_ok top rk (Hmm.b_edges st)
    ∧ 1 ≤ ns
    ∧ (∀ t, Hmm.target_node st = Some t → 0 ≤ t ≤ top)
    ∧ (pdl ≠ 1 →
       if j =? 0 then
         (0 < i → 0 ≤ Hmm.split_node st ≤ ns)
         ∧ (0 < i < k → rk ns = rk (Hmm.split_node st) + i)
         ∧ (i = k → 2 ≤ Hmm.merge_node st ∧ Hmm.merge_node st = ns
                    ∧ rk (Hmm.merge_node st) = rk (Hmm.split_node st) + L)
       else
         0 ≤ Hmm.split_node st ≤ ns
         ∧ 2 ≤ Hmm.merge_node st ≤ ns
         ∧ rk (Hmm.merge_node st) = rk (Hmm.split_node st) + L
         ∧ (0 < i < k → rk (ns + 1) = rk (Hmm.split_node st) + i)).

(** Between two words: nothing is built before the first word of a clean
    graph; afterwards the edges are ranked and use the states up to
    [num_states]. *)
Definition hmm_word_inv (i : Z) (st : Hmm.build) : Prop :=
  (i = 0 ∧ Hmm.b_num_states st = -1 ∧ Hmm.b_edges st = [] ∧ Hmm.target_node st = None)
  ∨ (0 < i ∧ hmm_phon_inv 1 0 1 1 0 st).

(** While the allophone states are added: the ranking is [K] times the
    ranking [rk] of the [N] states there were, and ranks the new states
    in between. *)
Definition allo_inv (K N : Z) (rk : Z → Z) (n : Z) (es : list Edge) : Prop :=
  ∃ rk' : Z → Z,
    N ≤ n ∧ (∀ x, 0 ≤ x < N → rk' x = K * rk x) ∧ rank_ok (n - 1) rk' es.

(** Between two allophone states of the edge [x], [i] states done. *)
Definition allo_state_inv (K N : Z) (rk : Z → Z) (n : Z) (done tmp : list Edge) (x : Edge)
    (i : Z) (st : Z * Edge * list Edge) : Prop :=
  let '(n_i, e_i, tmp_i) := st in
  if i =? 0 then st = (n, x, tmp)
  else
    ∃ rk' : Z → Z,
      N ≤ n_i ∧ (∀ y, 0 ≤ y < N → rk' y = K * rk y)
      ∧ (i < K → rank_ok n_i rk' (done ++ [e_i] ++ tmp_i)
                 ∧ rk' n_i = K * rk (source_state_idx x) + i)
      ∧ (i = K → rank_ok (n_i - 1) rk' (done ++ [e_i] ++ tmp_i)).

(** Between two edges of the allophone expansion, [p] being the edges
    visited: the visited edges and the new ones are ranked, and the first
    edge is still the first. *)
Definition allo_edge_inv (K N : Z) (rk : Z → Z) (p : list Edge)
    (st : Z * list Edge * list Edge) : Prop :=
  let '(n, done, tmp) := st in
  allo_inv K N rk n (done ++ tmp) ∧ (p = [] → done = []) ∧ (head_ok p → head_ok done).

(** The count and the edges [Hmm.run] has before the renumbering. *)
Definition expanded_after (r : option (Z * list Edge)) : Z * list Edge := default (0, []) r.

(** ** What the properties of [FastBwFsaShared] speak of *)

(** The automata that the interface of [FastBwFsaShared] builds. *)
Inductive fast_bw_built : FastBwFsaShared.t → Prop :=
  | built_init : fast_bw_built FastBwFsaShared.init
  | built_add_edge f s t e w :
      fast_bw_built f → fast_bw_built (FastBwFsaShared.add_edge f s t e w)
  | built_add_inf_loop f s n :
      fast_bw_built f → fast_bw_built (FastBwFsaShared.add_inf_loop f s n).

(** The least count that is positive and above every state in a list. *)
Definition least_count (states : list Z) : Z :=
  foldr (λ s acc, Z.max (s + 1) acc) 1 states.

(** The range of [int32], and what is assumed of numpy: a tuple of
    integers in the range is stored as it is. *)
Definition in_int32 (z : Z) : Prop := - 2 ^ 31 ≤ z < 2 ^ 31.

Definition stores_int32 (np : Numpy) : Prop :=
  (∀ s t l b, in_int32 s → in_int32 t → in_int32 l → in_int32 b →
     int32_column np (s, t, LInt l, b) = Some (s, t, l, b))
  ∧ (∀ s e, in_int32 s → in_int32 e → int32_pair np (s, e) = Some (s, e)).

(** One conversion of which this holds, for the examples: it raises for
    whatever is not an integer in the range. *)
Definition int32_or_raise (z : Z) : option Z :=
  if (- 2 ^ 31 <=? z) && (z <? 2 ^ 31) then Some z else None.

Definition raising_numpy : Numpy :=
  mkNumpy
    (λ v, let '(s, t, l, b) := v in
          s' ← int32_or_raise s; t' ← int32_or_raise t;
          l' ← match l with LInt z => int32_or_raise z | _ => None end;
          b' ← int32_or_raise b; Some (s', t', l', b'))
    (λ v, let '(s, e) := v in
          s' ← int32_or_raise s; e' ← int32_or_raise e; Some (s', e')).

(** Every value that [get_edges] and [get_start_end_states] write for a
    batch of [n_batch] sequences is an integer in the range of [int32]. *)
Definition batch_fits_int32 (f : FastBwFsaShared.t) (n_batch : Z) : Prop :=
  let ns := FastBwFsaShared.num_states f in
  ∀ b, 0 ≤ b < n_batch →
    in_int32 b ∧ in_int32 (0 + b * ns) ∧ in_int32 (ns - 1 + b * ns)
    ∧ ∀ e, e ∈ FastBwFsaShared.edges f →
        in_int32 (source_state_idx e + b * ns) ∧ in_int32 (target_state_idx e + b * ns)
        ∧ ∃ l, label e = LInt l ∧ in_int32 l.

(** The integer a label is, and the column of an edge in the copy of the
    automaton for one sequence of the batch. *)
Definition emission_idx (l : Label) : option Z :=
  match l with LInt z => Some z | _ => None end.

Definition batch_column (f : FastBwFsaShared.t) (batch_idx : Z) (edge : Edge) : column :=
  (source_state_idx edge + batch_idx * FastBwFsaShared.num_states f,
   target_state_idx edge + batch_idx * FastBwFsaShared.num_states f,
   default 0 (emission_idx (label edge)),
   batch_idx).

Definition batch_start_end (f : FastBwFsaShared.t) (batch_idx : Z) : Z * Z :=
  (0 + batch_idx * FastBwFsaShared.num_states f,
   FastBwFsaShared.num_states f - 1 + batch_idx * FastBwFsaShared.num_states f).

(** * Properties *)

(** ** Store.label_conversion *)

Lemma convert_label_single (c : ascii) :
  LStr (str1 c) ≠ BLANK → LStr (str1 c) ≠ SIL → LStr (str1 c) ≠ EPS →
  Store.convert_label (LStr (str1 c)) = Some (LInt (ord c)).
Proof.
  intros Hb Hs He. unfold Store.convert_label.
  destruct (decide (LStr (str1 c) = BLANK)) as [|_]; [done|].
  destruct (decide (LStr (str1 c) = SIL ∨ LStr (str1 c) = EPS)) as [[|]|_]; done.
Qed.

Lemma convert_label_other (l : Label) :
  (∀ z, l ≠ LInt z) → (∀ c, l ≠ LStr (str1 c)) → Store.convert_label l = None.
Proof.
  intros Hz Hc. unfold Store.convert_label.
  destruct (decide (l = BLANK)) as [->|_]; [by destruct (Hc "%"%char)|].
  destruct (decide (l = SIL ∨ l = EPS)) as [[->| ->]|_];
    [by destruct (Hc "_"%char)|by destruct (Hc "*"%char)|].
  destruct l as [|z|s]; [done|by destruct (Hz z)|].
  destruct s as [|c [|c' s]]; [done| |done]. by destruct (Hc c).
Qed.

(** C7.  [Store.label_conversion] converts the labels of an edge list one
    by one: the blank symbol becomes 32, the code of the space; the silence
    symbol, the epsilon symbol and an integer stay; any other string of one
    character becomes the code of the character; a label of any other shape
    ([None], a string that has not one character) raises, and so does the
    conversion of a list that holds such a label. *)
Theorem label_conversion_elementwise :
  Store.convert_label BLANK = Some (LInt 32)
  ∧ Store.convert_label SIL = Some SIL
  ∧ Store.convert_label EPS = Some EPS
  ∧ (∀ z, Store.convert_label (LInt z) = Some (LInt z))
  ∧ (∀ c, LStr (str1 c) ∉ [BLANK; SIL; EPS] →
       Store.convert_label (LStr (str1 c)) = Some (LInt (ord c)))
  ∧ (∀ l, (∀ z, l ≠ LInt z) → (∀ c, l ≠ LStr (str1 c)) → Store.convert_label l = None)
  ∧ (∀ es es', Store.label_conversion es = Some es' ↔
       Forall2 (λ e e', ∃ l, Store.convert_label (label e) = Some l ∧ e' = set_label l e) es es')
  ∧ (∀ es, Store.label_conversion es = None ↔
       ∃ e, e ∈ es ∧ Store.convert_label (label e) = None).
Proof.
  split_and!; try done.
  - intros c Hc. apply convert_label_single; intros E; apply Hc; rewrite E; set_solver.
  - apply convert_label_other.
  - intros es es'. unfold Store.label_conversion. rewrite mapM_Some.
    split; intros H; (eapply Forall2_impl; [exact H|]); simpl; intros e e'.
    + destruct (Store.convert_label (label e)) as [l|]; simpl; [|done].
      intros [= <-]. by exists l.
    + intros (l & -> & ->). done.
  - intros es. unfold Store.label_conversion.
    rewrite eq_None_not_Some, mapM_is_Some, <- Exists_Forall_neg, Exists_exists.
    + split; intros (e & Hin & He); exists e; (split; [done|]).
      * simpl in He. destruct (Store.convert_label (label e)); [|done].
        destruct He. by eexists.
      * simpl. rewrite He. simpl. by intros [? ?].
    + intros e. simpl. destruct (Store.convert_label (label e)); simpl.
      * left. by eexists.
      * right. by intros [? ?].
Qed.

(** ** Asg.run: the repetition scan *)

Lemma scan_word_acc (a : Asg.t) (l : list ascii) (st : Asg.scan) (acc : list Label) :
  fold_left (λ acc c, let '(s, out) := Asg.scan_label a acc.1 c in (s, acc.2 ++ out)) l (st, acc)
  = let r := fold_left (λ acc c, let '(s, out) := Asg.scan_label a acc.1 c in (s, acc.2 ++ out))
               l (st, []) in
    (r.1, acc ++ r.2).
Proof.
  revert st acc. induction l as [|c l IH]; intros st acc; simpl.
  - by rewrite app_nil_r.
  - destruct (Asg.scan_label a st c) as [s out] eqn:E. simpl.
    rewrite (IH s (acc ++ out)), (IH s out). simpl. by rewrite app_assoc.
Qed.

Lemma scan_word_cons (a : Asg.t) (st : Asg.scan) (c : ascii) (rest : string) :
  Asg.scan_word a st (String c rest)
  = ((Asg.scan_word a (Asg.scan_label a st c).1 rest).1,
     (Asg.scan_label a st c).2 ++ (Asg.scan_word a (Asg.scan_label a st c).1 rest).2).
Proof.
  unfold Asg.scan_word. simpl.
  destruct (Asg.scan_label a st c) as [s out]. simpl. by rewrite scan_word_acc.
Qed.

Lemma scan_label_prev (a : Asg.t) (st : Asg.scan) (c : ascii) :
  Asg.prev (Asg.scan_label a st c).1 = Some c.
Proof. unfold Asg.scan_label. repeat case_match; done. Qed.

Lemma scan_word_prev (a : Asg.t) (w : string) (st : Asg.scan) (c : ascii) :
  Asg.prev (Asg.scan_word a st (w +:+ str1 c)).1 = Some c.
Proof.
  revert st. induction w as [|d w IH]; intros st.
  - change ("" +:+ str1 c) with (String c ""). rewrite scan_word_cons. simpl.
    apply scan_label_prev.
  - change (String d w +:+ str1 c) with (String d (w +:+ str1 c)).
    rewrite scan_word_cons. simpl. apply IH.
Qed.

Lemma scan_words_acc (a : Asg.t) (lems : list string) (st : Asg.scan) (acc : list (list Label)) :
  fold_left (λ acc lem, let '(s, reps) := Asg.scan_word a acc.1 lem in (s, acc.2 ++ [reps]))
    lems (st, acc)
  = let r := Asg.scan_words a st lems in (r.1, acc ++ r.2).
Proof.
  unfold Asg.scan_words. revert st acc. induction lems as [|w lems IH]; intros st acc; simpl.
  - by rewrite app_nil_r.
  - destruct (Asg.scan_word a st w) as [s reps]. simpl.
    rewrite (IH s (acc ++ [reps])), (IH s [reps]). simpl. by rewrite <- app_assoc.
Qed.

(** The loop over the words hands the state of the scan from one word to
    the next. *)
Lemma scan_words_cons (a : Asg.t) (st : Asg.scan) (w : string) (lems : list string) :
  Asg.scan_words a st (w :: lems)
  = ((Asg.scan_words a (Asg.scan_word a st w).1 lems).1,
     (Asg.scan_word a st w).2 :: (Asg.scan_words a (Asg.scan_word a st w).1 lems).2).
Proof.
  unfold Asg.scan_words at 1. simpl. destruct (Asg.scan_word a st w) as [s reps]. simpl.
  by rewrite scan_words_acc.
Qed.

Lemma scan_words_app (a : Asg.t) (st : Asg.scan) (l1 l2 : list string) :
  Asg.scan_words a st (l1 ++ l2)
  = ((Asg.scan_words a (Asg.scan_words a st l1).1 l2).1,
     (Asg.scan_words a st l1).2 ++ (Asg.scan_words a (Asg.scan_words a st l1).1 l2).2).
Proof.
  revert st. induction l1 as [|w l1 IH]; intros st.
  - simpl. by destruct (Asg.scan_words a st l2).
  - change ((w :: l1) ++ l2) with (w :: (l1 ++ l2)). rewrite !scan_words_cons, IH. done.
Qed.

Lemma scan_words_length (a : Asg.t) (st : Asg.scan) (lems : list string) :
  length (Asg.scan_words a st lems).2 = length lems.
Proof.
  revert st. induction lems as [|w lems IH]; intros st; [done|].
  rewrite scan_words_cons. simpl. by rewrite IH.
Qed.

(** C10 (amended).  The scan of [Asg.run] keeps [label_prev] and
    [rep_count] from one word to the next.  Take any sentence in which a
    word that ends with the character [c] is followed by a word that
    starts with [c], and let [r] be the counter that the scan of the
    sentence, from its initial state, has reached at the end of the first
    of the two.  Then [label_prev] is [c] there, and the first character
    of the second word takes the branch of a repetition: below the
    threshold the counter goes up by one and nothing is emitted; at the
    threshold the counter is flushed as the symbol [num_labels + r] and
    starts again at 1.  In neither case is the label [c] itself emitted at
    that point.  The scan of the whole sentence is the scan of the words up
    to the boundary, followed by that of the rest of the second word and of
    the later words from the state so reached; so the labels of a word
    depend on the word before it: "ab" emits a symbol and "b" after "ba",
    and "a" and "b" after "bc". *)
Theorem asg_repetition_crosses_word_boundary (a : Asg.t) (g : Graph) (pre post : list string)
    (w rest : string) (c : ascii) :
  lem_list g = pre ++ [w +:+ str1 c; String c rest] ++ post →
  let before := Asg.scan_words a (Asg.mkScan None 0) (pre ++ [w +:+ str1 c]) in
  let r := Asg.rep_count before.1 in
  let at_c :=
    if r <? Asg.asg_repetition a then (Asg.mkScan (Some c) (r + 1), [])
    else (Asg.mkScan (Some c) 1, [LInt (Asg.num_labels a + r)]) in
  let second := Asg.scan_word a at_c.1 rest in
  let later := Asg.scan_words a second.1 post in
  Asg.prev before.1 = Some c
  ∧ Asg.scan_label a before.1 c = at_c
  ∧ (LStr (str1 c) ∉ at_c.2)
  ∧ Asg.scan_words a (Asg.mkScan None 0) (lem_list g)
    = (later.1, before.2 ++ [at_c.2 ++ second.2] ++ later.2)
  ∧ Asg.label_repetitions a g !! S (length pre) = Some (at_c.2 ++ second.2)
  ∧ Asg.label_repetitions (Asg.mk 256 2 false false) (empty_Graph None ["ba"; "ab"])
    = [[LStr "b"; LStr "a"]; [LInt 257; LStr "b"]]
  ∧ Asg.label_repetitions (Asg.mk 256 2 false false) (empty_Graph None ["bc"; "ab"])
    = [[LStr "b"; LStr "c"]; [LStr "a"; LStr "b"]].
Proof.
  intros Hg before r at_c second later.
  assert (Hp : Asg.prev before.1 = Some c).
  { unfold before. rewrite scan_words_app, scan_words_cons. simpl. apply scan_word_prev. }
  assert (Hs : Asg.scan_label a before.1 c = at_c).
  { unfold Asg.scan_label. rewrite Hp.
    destruct (decide (Some c = Some c)) as [_|Hne]; [|by destruct Hne].
    fold r. unfold at_c. by destruct (r <? Asg.asg_repetition a). }
  assert (Hw : Asg.scan_words a (Asg.mkScan None 0) (lem_list g)
               = (later.1, before.2 ++ [at_c.2 ++ second.2] ++ later.2)).
  { rewrite Hg.
    replace (pre ++ [w +:+ str1 c; String c rest] ++ post)
      with ((pre ++ [w +:+ str1 c]) ++ String c rest :: post) by (by rewrite <- app_assoc).
    rewrite scan_words_app. fold before.
    rewrite scan_words_cons, scan_word_cons, Hs. simpl. done. }
  split_and!; [done|done| |done| |reflexivity|reflexivity].
  - unfold at_c. destruct (r <? Asg.asg_repetition a); simpl.
    + apply not_elem_of_nil.
    + intros H%list_elem_of_singleton. discriminate.
  - unfold Asg.label_repetitions. rewrite Hw. simpl.
    rewrite lookup_app_r; unfold before; rewrite scan_words_length, length_app; simpl; [|lia].
    by replace (S (length pre) - (length pre + 1))%nat with 0%nat by lia.
Qed.

Lemma asg_repetition_crosses_word_boundary_witness :
  let a := Asg.mk 256 2 false false in
  let before := Asg.scan_words a (Asg.mkScan None 0) (["c"] ++ ["a" +:+ str1 "a"]) in
  let r := Asg.rep_count before.1 in
  let at_c :=
    if r <? Asg.asg_repetition a then (Asg.mkScan (Some "a"%char) (r + 1), [])
    else (Asg.mkScan (Some "a"%char) 1, [LInt (Asg.num_labels a + r)]) in
  let second := Asg.scan_word a at_c.1 "ab" in
  let later := Asg.scan_words a second.1 ["b"] in
  Asg.prev before.1 = Some "a"%char
  ∧ Asg.scan_label a before.1 "a" = at_c
  ∧ (LStr (str1 "a") ∉ at_c.2)
  ∧ Asg.scan_words a (Asg.mkScan None 0) (lem_list (empty_Graph None ["c"; "aa"; "aab"; "b"]))
    = (later.1, before.2 ++ [at_c.2 ++ second.2] ++ later.2)
  ∧ Asg.label_repetitions a (empty_Graph None ["c"; "aa"; "aab"; "b"]) !! 2%nat
    = Some (at_c.2 ++ second.2)
  ∧ Asg.label_repetitions (Asg.mk 256 2 false false) (empty_Graph None ["ba"; "ab"])
    = [[LStr "b"; LStr "a"]; [LInt 257; LStr "b"]]
  ∧ Asg.label_repetitions (Asg.mk 256 2 false false) (empty_Graph None ["bc"; "ab"])
    = [[LStr "b"; LStr "c"]; [LStr "a"; LStr "b"]].
Proof.
  apply (asg_repetition_crosses_word_boundary (Asg.mk 256 2 false false)
           (empty_Graph None ["c"; "aa"; "aab"; "b"]) ["c"] ["b"] "a" "ab" "a"%char).
  reflexivity.
Defined.

(** The counter is not advanced at every such boundary.  With
    [asg_repetition = 2] the scan of "aaa" ends with the counter at 2, and
    the "a" of a next word "a" does not advance it: the counter is flushed
    as the symbol 258, which is emitted at that point, and is 1
    afterwards. *)
Lemma asg_counter_restarts_at_threshold :
  let a := Asg.mk 256 2 false false in
  Asg.scan_words a (Asg.mkScan None 0) ["aaa"]
  = (Asg.mkScan (Some "a"%char) 2, [[LStr "a"]])
  ∧ Asg.scan_words a (Asg.mkScan None 0) ["aaa"; "a"]
    = (Asg.mkScan (Some "a"%char) 1, [[LStr "a"]; [LInt 258]])
  ∧ Asg.label_repetitions a (empty_Graph None ["aaa"; "a"]) = [[LStr "a"]; [LInt 258]].
Proof. split_and!; reflexivity. Qed.

(** C4 (the code differs).  For the sentence "aaa" with [num_labels = 256]
    and [asg_repetition = 2] the scan ends with [rep_count = 2] and nothing
    flushes it: the labels are ["a"] alone, not ["a", 258], and the
    automaton is the one of the sentence "a": one advancing edge and its
    loop, two states. *)
Theorem asg_aaa_drops_trailing_repeats :
  ∃ g g',
    Graph_init (PStr "aaa") = Some g
    ∧ Asg.scan_words (Asg.mk 256 2 false false) (Asg.mkScan None 0) (lem_list g)
      = (Asg.mkScan (Some "a"%char) 2, [[LStr "a"]])
    ∧ Asg.label_repetitions (Asg.mk 256 2 false false) g ≠ [[LStr "a"; LInt 258]]
    ∧ Asg.run (Asg.mk 256 2 false false) g = Some g'
    ∧ num_states_asg g' = 2
    ∧ tuples (edges_asg g') = [(0, 1, LStr "a", 0); (1, 1, LStr "a", 0)].
Proof. do 2 eexists. split_and!; [reflexivity|reflexivity|discriminate|reflexivity..]. Qed.

(** ** Ctc.run: the direct edges *)

(** Within a word, from the second label on, the direct edge is appended
    exactly when the label differs from the one before it, or the word has
    one label. *)
Lemma direct_edge_wanted_inner (seq : list ascii) (i : Z) :
  1 ≤ i →
  Ctc.direct_edge_wanted seq i
  = bool_decide (seq !! Z.to_nat i ≠ seq !! Z.to_nat (i - 1)) || (len seq =? 1).
Proof.
  intros Hi. unfold Ctc.direct_edge_wanted, py_index.
  destruct (0 <=? i) eqn:E1; [|lia]. destruct (0 <=? i - 1) eqn:E2; [done|lia].
Qed.

(** For the first label the index [i - 1] is [-1]: the label is compared
    with the last label of the word. *)
Lemma direct_edge_wanted_first (c : ascii) (rest : list ascii) :
  Ctc.direct_edge_wanted (c :: rest) 0
  = bool_decide (Some c ≠ last (c :: rest)) || (len (c :: rest) =? 1).
Proof.
  unfold Ctc.direct_edge_wanted, py_index. simpl (0 <=? 0). simpl (0 <=? 0 - 1).
  assert (E : (0 <=? len (c :: rest) + (0 - 1)) = true)
    by (apply Z.leb_le; unfold len; simpl; lia).
  rewrite E.
  replace (Z.to_nat (len (c :: rest) + (0 - 1))) with (length rest)
    by (unfold len; simpl; lia).
  do 2 f_equal. rewrite last_lookup. done.
Qed.

(** C3 (the code differs).  In the word "aba" the first label has no
    predecessor, yet [seq[i - 1]] with [i = 0] reads the last label, an "a"
    again, and the direct edge from state 0 to state 2 is not appended:
    state 2 is reached through the blank only.  The word "abc" has the
    direct edge. *)
Theorem ctc_first_label_compared_with_last :
  ∃ g g3,
    Graph_init (PStr "aba") = Some g
    ∧ Graph_init (PStr "abc") = Some g3
    ∧ Ctc.direct_edge_wanted (chars "aba") 0 = false
    ∧ tuples (Ctc.b_edges (Ctc.lattice g))
      = [(0, 1, BLANK, 0); (1, 2, LStr "a", 0);
         (2, 4, LStr "b", 0); (2, 3, BLANK, 0); (3, 4, LStr "b", 0);
         (4, 6, LStr "a", 0); (4, 5, BLANK, 0); (5, 6, LStr "a", 0)]
    ∧ ((0, 2, LStr "a", 0) ∉ tuples (Ctc.b_edges (Ctc.lattice g)))
    ∧ (0, 2, LStr "a", 0) ∈ tuples (Ctc.b_edges (Ctc.lattice g3)).
Proof.
  do 2 eexists. split_and!; [reflexivity..| |]; compute_done.
Qed.

(** ** The constructors *)

(** C5, as the code has it.  The three constructors, and [Graph.__init__],
    raise exactly when an argument has not the type they test with
    [isinstance]: [fsa] a [Graph]; [num_labels], [asg_repetition], [depth]
    and [allo_num_states] an [int]; the [label_conversion] of [Asg] a
    [bool] and the one of [Ctc] an [int]; [lemma] a [str] or a [list].  The
    value of an argument is not looked at, and a constructor that returns
    has kept the graph and the integers it was given. *)
Theorem constructors_check_types_only :
  (∀ fsa n r c,
     Asg.init fsa n r c = None ↔
     as_Graph fsa = None ∨ as_int n = None ∨ as_int r = None ∨ as_bool c = None)
  ∧ (∀ fsa n c,
       Ctc.init fsa n c = None ↔ as_Graph fsa = None ∨ as_int n = None ∨ as_int c = None)
  ∧ (∀ fsa d k s,
       Hmm.init fsa d k s = None ↔ as_Graph fsa = None ∨ as_int d = None ∨ as_int k = None)
  ∧ (∀ v, Graph_init v = None ↔ (∀ s, v ≠ PStr s) ∧ (∀ l, v ≠ PList l))
  ∧ (∀ g n r c, Asg.init (PGraph g) (PInt n) (PInt r) (PBool c) = Some (g, Asg.mk n r c false))
  ∧ (∀ g n c, Ctc.init (PGraph g) (PInt n) (PInt c) = Some (g, Ctc.mk n c []))
  ∧ (∀ g d k s,
       Hmm.init (PGraph g) (PInt d) (PInt k) s = Some (g, Hmm.mk d k (truthy s) None None)).
Proof.
  split_and!; try done.
  - intros fsa n r c. unfold Asg.init.
    destruct (as_Graph fsa), (as_int n), (as_int r), (as_bool c);
      (split; [first [done|auto]|by intros [?|[?|[?|?]]]]).
  - intros fsa n c. unfold Ctc.init.
    destruct (as_Graph fsa), (as_int n), (as_int c); simpl;
      (split; [first [done|auto]|by intros [?|[?|?]]]).
  - intros fsa d k s. unfold Hmm.init.
    destruct (as_Graph fsa), (as_int d), (as_int k);
      (split; [first [done|auto]|by intros [?|[?|?]]]).
  - intros v. destruct v as [|b|z|s|l|g]; simpl; split; try done; intros [H1 H2];
      first [destruct (H1 _ eq_refl)|destruct (H2 _ eq_refl)].
Qed.

(** C5 as stated fails: a label count of 0 with a repetition threshold of
    1, and an allophone-state count of 0, are accepted. *)
Lemma constructors_accept_values_out_of_range :
  Asg.init (PGraph (empty_Graph None [])) (PInt 0) (PInt 1) (PBool false)
  = Some (empty_Graph None [], Asg.mk 0 1 false false)
  ∧ Hmm.init (PGraph (empty_Graph None [])) (PInt 6) (PInt 0) (PBool false)
    = Some (empty_Graph None [], Hmm.mk 6 0 false None None).
Proof. split; reflexivity. Qed.

(** ** The working fields *)

(** C8.  A [run] that returns leaves [num_states = -1] and [edges = []],
    has copied the working count and the working edges into the two fields
    of its topology, and has changed no other field of the graph. *)
Theorem run_clears_working_fields :
  (∀ a g g', Asg.run a g = Some g' →
     Asg.working a g = Some (num_states_asg g', edges_asg g')
     ∧ g' = mkGraph (lemma g) (lem_list g) (filename g) (-1)
              (num_states_asg g') (num_states_ctc g) (num_states_hmm g) (num_states_word g)
              [] (edges_asg g') (edges_ctc g) (edges_hmm g) (edges_word g))
  ∧ (∀ c g c' g', Ctc.run c g = Some (c', g') →
       Ctc.working c g = Some (c', (num_states_ctc g', edges_ctc g'))
       ∧ g' = mkGraph (lemma g) (lem_list g) (filename g) (-1)
                (num_states_asg g) (num_states_ctc g') (num_states_hmm g) (num_states_word g)
                [] (edges_asg g) (edges_ctc g') (edges_hmm g) (edges_word g))
  ∧ (∀ fuel h g g', Hmm.run fuel h g = Some g' →
       Hmm.working fuel h g = Some (num_states_hmm g', edges_hmm g')
       ∧ g' = mkGraph (lemma g) (lem_list g) (filename g) (-1)
                (num_states_asg g) (num_states_ctc g) (num_states_hmm g') (num_states_word g)
                [] (edges_asg g) (edges_ctc g) (edges_hmm g') (edges_word g)).
Proof.
  split_and!.
  - intros a g g'. unfold Asg.run.
    destruct (Asg.working a g) as [[n es]|]; simpl; [|done]. by intros [= <-].
  - intros c g c' g'. unfold Ctc.run.
    destruct (Ctc.working c g) as [[c1 [n es]]|]; simpl; [|done]. by intros [= <- <-].
  - intros fuel h g g'. unfold Hmm.run.
    destruct (Hmm.working fuel h g) as [[n es]|]; simpl; [|done]. by intros [= <-].
Qed.

Lemma run_clears_working_fields_witness :
  (Asg.working example_asg example_graph
   = Some (num_states_asg (graph_after (Asg.run example_asg example_graph)),
           edges_asg (graph_after (Asg.run example_asg example_graph)))
   ∧ graph_after (Asg.run example_asg example_graph)
     = mkGraph None ["ab"; "a"] None (-1)
         (num_states_asg (graph_after (Asg.run example_asg example_graph))) (-1) (-1) (-1)
         [] (edges_asg (graph_after (Asg.run example_asg example_graph))) [] [] [])
  ∧ (Ctc.working example_ctc example_graph
     = Some ((ctc_after (Ctc.run example_ctc example_graph)).1,
             (num_states_ctc (ctc_after (Ctc.run example_ctc example_graph)).2,
              edges_ctc (ctc_after (Ctc.run example_ctc example_graph)).2))
     ∧ (ctc_after (Ctc.run example_ctc example_graph)).2
       = mkGraph None ["ab"; "a"] None (-1) (-1)
           (num_states_ctc (ctc_after (Ctc.run example_ctc example_graph)).2) (-1) (-1)
           [] [] (edges_ctc (ctc_after (Ctc.run example_ctc example_graph)).2) [] [])
  ∧ (Hmm.working 1000 example_hmm example_graph
     = Some (num_states_hmm (graph_after (Hmm.run 1000 example_hmm example_graph)),
             edges_hmm (graph_after (Hmm.run 1000 example_hmm example_graph)))
     ∧ graph_after (Hmm.run 1000 example_hmm example_graph)
       = mkGraph None ["ab"; "a"] None (-1) (-1) (-1)
           (num_states_hmm (graph_after (Hmm.run 1000 example_hmm example_graph))) (-1)
           [] [] [] (edges_hmm (graph_after (Hmm.run 1000 example_hmm example_graph))) []).
Proof.
  destruct run_clears_working_fields as (HA & HC & HH).
  split; [|split].
  - assert (H : Asg.run example_asg example_graph
                 = Some (graph_after (Asg.run example_asg example_graph)))
      by (vm_compute; reflexivity).
    exact (HA _ _ _ H).
  - assert (H : Ctc.run example_ctc example_graph
                 = Some ((ctc_after (Ctc.run example_ctc example_graph)).1,
                         (ctc_after (Ctc.run example_ctc example_graph)).2))
      by (vm_compute; reflexivity).
    exact (HC _ _ _ _ H).
  - assert (H : Hmm.run 1000 example_hmm example_graph
                 = Some (graph_after (Hmm.run 1000 example_hmm example_graph)))
      by (vm_compute; reflexivity).
    exact (HH _ _ _ _ H).
Defined.

(** ** The state count *)

(** C2 (the code differs).  With the separator switched on and a list
    input whose first word is empty, the separator is built from the stale
    [src_idx = trgt_idx = 0] and moves [cur_idx] off 0, so the first
    advancing edge does not count the start state: the count is 2, the
    largest state index is 2, and state 0 occurs in no edge. *)
Theorem asg_separator_after_empty_word_miscounts :
  ∃ g g',
    Graph_init (PList [""; "a"]) = Some g
    ∧ Asg.run (Asg.mk 256 2 false true) g = Some g'
    ∧ num_states_asg g' = 2
    ∧ tuples (edges_asg g') = [(1, 1, BLANK, 0); (1, 1, BLANK, 0); (1, 2, LStr "a", 0)]
    ∧ max_state_idx (edges_asg g') = Some 2
    ∧ 0 ∉ states_of (edges_asg g').
Proof. do 2 eexists. split_and!; [reflexivity..|compute_done]. Qed.

(** ** Graph.make_single_state_graph *)

Lemma deepcopy_refs_copying (h0 : list Edge) (rs : list nat) (h : list Edge)
    (memo : gmap nat nat) :
  copying h0 h memo →
  Forall (λ r, r < length h0)%nat rs →
  ∃ h' memo' rs',
    Heap.deepcopy_refs h memo rs = Some (h', memo', rs')
    ∧ copying h0 h' memo'
    ∧ Forall2 (λ r r', (length h0 ≤ r')%nat ∧ h' !! r' = h0 !! r) rs rs'.
Proof.
  revert h memo. induction rs as [|r rs IH]; intros h memo Hc Hrs.
  - exists h, memo, []. by split_and!.
  - apply Forall_cons in Hrs as [Hr Hrs]. pose proof Hc as (Hold & Hlen & Hmemo).
    assert (∃ h1 memo1 r', Heap.deepcopy_ref h memo r = Some (h1, memo1, r')
              ∧ copying h0 h1 memo1
              ∧ (length h0 ≤ r' < length h1)%nat ∧ h1 !! r' = h0 !! r)
      as (h1 & memo1 & r' & E1 & Hc1 & Hr' & Hcopy).
    { unfold Heap.deepcopy_ref. destruct (memo !! r) as [r'|] eqn:Em.
      - exists h, memo, r'. destruct (Hmemo _ _ Em). split_and!; done || lia.
      - destruct (lookup_lt_is_Some_2 h0 r Hr) as [e He].
        rewrite (Hold r Hr), He. simpl.
        exists (h ++ [e]), (<[r := length h]> memo), (length h).
        assert (Hnew : (h ++ [e]) !! length h = Some e)
          by (rewrite lookup_app_r, Nat.sub_diag by lia; done).
        split_and!; [done| |lia|rewrite length_app; simpl; lia|by rewrite Hnew].
        split_and!.
        + intros q Hq. rewrite lookup_app_l by lia. by apply Hold.
        + rewrite length_app. simpl. lia.
        + rewrite length_app. simpl. intros q q'. rewrite lookup_insert.
          case_decide as Eq.
          * intros [= <-]. subst q. split; [lia|]. by rewrite Hnew.
          * intros Hq. destruct (Hmemo _ _ Hq) as [Hb Hq'].
            split; [lia|]. rewrite lookup_app_l by lia. done. }
    destruct (IH h1 memo1 Hc1 Hrs) as (h2 & memo2 & rs' & E2 & Hc2 & Hall).
    exists h2, memo2, (r' :: rs'). simpl. rewrite E1. simpl. rewrite E2. simpl.
    split_and!; [done|done|]. constructor; [|done].
    split; [lia|]. destruct Hc1 as (_ & Hlen1 & _).
    (* the copy of [r] is not touched by the copies that follow *)
    clear -E2 Hr' Hcopy. revert h1 memo1 h2 memo2 rs' E2 Hr' Hcopy.
    induction rs as [|q rs IHq]; intros h1 memo1 h2 memo2 rs' E2 Hr' Hcopy; simpl in E2.
    + by injection E2 as <- _ _.
    + destruct (Heap.deepcopy_ref h1 memo1 q) as [[[h3 memo3] q']|] eqn:E3; simpl in E2; [|done].
      destruct (Heap.deepcopy_refs h3 memo3 rs) as [[[h4 memo4] rs4]|] eqn:E4;
        simpl in E2; [|done].
      injection E2 as <- _ _.
      assert ((length h0 ≤ r' < length h3)%nat ∧ h3 !! r' = h0 !! r) as [Hr3 Hc3].
      { unfold Heap.deepcopy_ref in E3. destruct (memo1 !! q).
        - by injection E3 as <- _ _.
        - destruct (h1 !! q); simpl in E3; [|done]. injection E3 as <- _ _.
          rewrite length_app, lookup_app_l by lia. split; [lia|done]. }
      by apply (IHq h3 memo3 h4 memo4 rs4).
Qed.

Lemma to_state_0_idemp (e : Edge) : Heap.to_state_0 (Heap.to_state_0 e) = Heap.to_state_0 e.
Proof. done. Qed.

Lemma lookup_alter_all (f : Edge → Edge) (l : list nat) (h : list Edge) (j : nat) :
  (∀ e, f (f e) = f e) →
  fold_left (λ acc r, alter f r acc) l h !! j
  = if decide (j ∈ l) then f <$> h !! j else h !! j.
Proof.
  intros Hf. revert h. induction l as [|r l IH]; intros h.
  - destruct (decide (j ∈ [])) as [Hin|_]; [by apply elem_of_nil in Hin|done].
  - cbn [fold_left]. rewrite IH. destruct (decide (r = j)) as [->|Hne].
    + rewrite list_lookup_alter. destruct (decide (j = j)) as [_|?]; [|done].
      destruct (decide (j ∈ j :: l)) as [_|Hnin];
        [|destruct Hnin; apply list_elem_of_here].
      destruct (decide (j ∈ l)); [|done]. destruct (h !! j); simpl; by rewrite ?Hf.
    + rewrite list_lookup_alter_ne by done.
      destruct (decide (j ∈ l)) as [Hin|Hin], (decide (j ∈ r :: l)) as [Hin'|Hin'];
        try done.
      * destruct Hin'. by apply list_elem_of_further.
      * apply elem_of_cons in Hin' as [->|?]; done.
Qed.

(** C9.  [Graph.make_single_state_graph] called with references to objects
    of the store returns a list of the same length; every object that was
    in the store before the call, so every edge of the input, is as it was;
    the i-th reference returned is to a new object, which is the i-th edge
    of the input with source and target 0 when [num_states > 1], and an
    unmodified copy of it when [num_states <= 1]; with the two states set
    to 0 the label, the weight and every annotation stay. *)
Theorem make_single_state_graph_copies (num_states : Z) (h : list Edge) (edges : list nat) :
  Forall (λ r, r < length h)%nat edges →
  ∃ h' edges',
    Heap.make_single_state_graph num_states h edges = Some (h', edges')
    ∧ length edges' = length edges
    ∧ (∀ r, (r < length h)%nat → h' !! r = h !! r)
    ∧ (∀ i r, edges !! i = Some r →
         ∃ r' e, edges' !! i = Some r' ∧ (length h ≤ r')%nat ∧ h !! r = Some e
                 ∧ h' !! r' = Some (if num_states >? 1 then Heap.to_state_0 e else e))
    ∧ (∀ e, Heap.to_state_0 e
            = mkEdge 0 0 (label e) (weight e) (label_prev e) (label_next e)
                (idx_word_in_sentence e) (idx_phon_in_word e) (idx e) (allo_idx e)
                (phon_at_word_begin e) (phon_at_word_end e) (score e) (is_loop e)).
Proof.
  intros Hvalid.
  destruct (deepcopy_refs_copying h edges h ∅) as (h1 & memo1 & rs' & E & Hc & Hall);
    [|done|].
  { split_and!; [done|done|]. intros r r'. by rewrite lookup_empty. }
  destruct Hc as (Hold & Hlen & _).
  assert (Hfresh : ∀ r, (r < length h)%nat → r ∉ rs').
  { intros r Hr Hin. apply list_elem_of_lookup in Hin as [i Hi].
    destruct (Forall2_lookup_r _ _ _ _ _ Hall Hi) as (q & _ & Hq & _). lia. }
  unfold Heap.make_single_state_graph. rewrite E. simpl.
  destruct (num_states >? 1) eqn:Ens; eexists _, rs'; (split; [done|]).
  - split_and!; [by rewrite (Forall2_length _ _ _ Hall)| | |done].
    + intros r Hr. rewrite lookup_alter_all by apply to_state_0_idemp.
      rewrite decide_False by by apply Hfresh. by apply Hold.
    + intros i r Hi. destruct (Forall2_lookup_l _ _ _ _ _ Hall Hi) as (r' & Hi' & Hge & Hcp).
      destruct (lookup_lt_is_Some_2 h r) as [e He];
        [by eapply Forall_lookup_1 in Hvalid|].
      exists r', e. split_and!; [done|done|done|].
      rewrite lookup_alter_all by apply to_state_0_idemp.
      rewrite decide_True by (by eapply list_elem_of_lookup_2). by rewrite Hcp, He.
  - split_and!; [by rewrite (Forall2_length _ _ _ Hall)|done| |done].
    intros i r Hi. destruct (Forall2_lookup_l _ _ _ _ _ Hall Hi) as (r' & Hi' & Hge & Hcp).
    destruct (lookup_lt_is_Some_2 h r) as [e He];
      [by eapply Forall_lookup_1 in Hvalid|].
    exists r', e. by rewrite Hcp, He.
Qed.

Lemma make_single_state_graph_copies_witness :
  ∃ h' edges',
    Heap.make_single_state_graph 3
      [new_Edge 0 1 (LStr "a") 0; new_Edge 1 2 (LStr "b") 0] [0; 1; 0]%nat
    = Some (h', edges')
    ∧ length edges' = 3%nat
    ∧ (∀ r, (r < 2)%nat →
         h' !! r = [new_Edge 0 1 (LStr "a") 0; new_Edge 1 2 (LStr "b") 0] !! r)
    ∧ (∀ i r, [0; 1; 0]%nat !! i = Some r →
         ∃ r' e, edges' !! i = Some r' ∧ (2 ≤ r')%nat
                 ∧ [new_Edge 0 1 (LStr "a") 0; new_Edge 1 2 (LStr "b") 0] !! r = Some e
                 ∧ h' !! r' = Some (Heap.to_state_0 e))
    ∧ (∀ e, Heap.to_state_0 e
            = mkEdge 0 0 (label e) (weight e) (label_prev e) (label_next e)
                (idx_word_in_sentence e) (idx_phon_in_word e) (idx e) (allo_idx e)
                (phon_at_word_begin e) (phon_at_word_end e) (score e) (is_loop e)).
Proof.
  apply (make_single_state_graph_copies 3
           [new_Edge 0 1 (LStr "a") 0; new_Edge 1 2 (LStr "b") 0] [0; 1; 0]%nat).
  repeat constructor.
Defined.

(** ** The order of the edges and the sort *)

Lemma string_compare_refl (s : string) : String.compare s s = Eq.
Proof.
  induction s as [|c s IH]; simpl; [done|].
  unfold Ascii.compare. by rewrite N.compare_refl.
Qed.

Lemma label_compare_refl (l : Label) : label_compare l l = Eq.
Proof. destruct l; simpl; [done|apply Z.compare_refl|apply string_compare_refl]. Qed.

Lemma label_compare_antisym (a b : Label) :
  label_compare b a = CompOpp (label_compare a b).
Proof.
  destruct a, b; simpl; try done.
  - apply Z.compare_antisym.
  - apply String.compare_antisym.
Qed.

Lemma lex_antisym (c c' d d' : comparison) :
  c' = CompOpp c → d' = CompOpp d → lex c' d' = CompOpp (lex c d).
Proof. intros -> ->. by destruct c. Qed.

Lemma tuple_compare_antisym (a b : Z * Z * Label * Z) :
  tuple_compare b a = CompOpp (tuple_compare a b).
Proof.
  destruct a as [[[s1 t1] l1] w1], b as [[[s2 t2] l2] w2]. simpl.
  repeat apply lex_antisym;
    auto using Z.compare_antisym, label_compare_antisym.
Qed.

Lemma Edge_le_lt (a b : Edge) : Edge_le a b = negb (Edge_lt b a).
Proof.
  unfold Edge_le, Edge_lt. rewrite (tuple_compare_antisym (as_tuple a) (as_tuple b)).
  by destruct (tuple_compare (as_tuple a) (as_tuple b)).
Qed.

Lemma Edge_lt_le (a b : Edge) : Edge_lt a b = true → edge_le a b.
Proof.
  unfold edge_le, Edge_le, Edge_lt.
  by destruct (tuple_compare (as_tuple a) (as_tuple b)).
Qed.

(** The order is transitive. *)
Lemma string_compare_lt_trans (a b c : string) :
  String.compare a b = Lt → String.compare b c = Lt → String.compare a c = Lt.
Proof.
  revert b c. induction a as [|x a IH]; intros [|y b] [|z c]; simpl; try done.
  unfold Ascii.compare.
  destruct (N.compare_spec (N_of_ascii x) (N_of_ascii y)) as [E1|L1|G1]; try done;
    destruct (N.compare_spec (N_of_ascii y) (N_of_ascii z)) as [E2|L2|G2]; try done;
    destruct (N.compare_spec (N_of_ascii x) (N_of_ascii z)) as [E3|L3|G3];
    try done; try lia; eauto.
Qed.

Lemma label_compare_eq (a b : Label) : label_compare a b = Eq → a = b.
Proof.
  destruct a, b; simpl; try done.
  - by intros ->%Z.compare_eq.
  - by intros ->%String.compare_eq_iff.
Qed.

Lemma label_compare_lt_trans (a b c : Label) :
  label_compare a b = Lt → label_compare b c = Lt → label_compare a c = Lt.
Proof.
  destruct a, b, c; simpl; try done.
  - rewrite !Z.compare_lt_iff. lia.
  - apply string_compare_lt_trans.
Qed.

Lemma lex_lt_trans {A : Type} (cmp : A → A → comparison) (x y z : A)
    (dxy dyz dxz : comparison) :
  (∀ u v, cmp u v = Eq → u = v) →
  (∀ u v w, cmp u v = Lt → cmp v w = Lt → cmp u w = Lt) →
  (dxy = Lt → dyz = Lt → dxz = Lt) →
  lex (cmp x y) dxy = Lt → lex (cmp y z) dyz = Lt → lex (cmp x z) dxz = Lt.
Proof.
  intros Heq Hlt Hd. unfold lex.
  destruct (cmp x y) eqn:Exy; [|clear Hd|done];
    (destruct (cmp y z) eqn:Eyz; [| |done]); intros H1 H2.
  - apply Heq in Exy as ->. rewrite Eyz. auto.
  - apply Heq in Exy as ->. by rewrite Eyz.
  - apply Heq in Eyz as ->. by rewrite Exy.
  - by rewrite (Hlt _ _ _ Exy Eyz).
Qed.

Lemma tuple_compare_lt_trans (a b c : Z * Z * Label * Z) :
  tuple_compare a b = Lt → tuple_compare b c = Lt → tuple_compare a c = Lt.
Proof.
  destruct a as [[[s1 t1] l1] w1], b as [[[s2 t2] l2] w2], c as [[[s3 t3] l3] w3].
  simpl.
  assert (HZeq : ∀ u v, (u ?= v) = Eq → u = v) by apply Z.compare_eq.
  assert (HZlt : ∀ u v w, (u ?= v) = Lt → (v ?= w) = Lt → (u ?= w) = Lt)
    by (intros u v w; rewrite !Z.compare_lt_iff; lia).
  apply (lex_lt_trans Z.compare); [done..|].
  apply (lex_lt_trans Z.compare); [done..|].
  apply (lex_lt_trans label_compare);
    [apply label_compare_eq|apply label_compare_lt_trans|apply HZlt].
Qed.

Lemma tuple_compare_eq (a b : Z * Z * Label * Z) : tuple_compare a b = Eq → a = b.
Proof.
  destruct a as [[[s1 t1] l1] w1], b as [[[s2 t2] l2] w2]. simpl. unfold lex.
  destruct (s1 ?= s2) eqn:Es; try done. destruct (t1 ?= t2) eqn:Et; try done.
  destruct (label_compare l1 l2) eqn:El; try done. intros Ew.
  apply Z.compare_eq in Es, Et, Ew. apply label_compare_eq in El. by subst.
Qed.

Lemma edge_le_trans : Transitive edge_le.
Proof.
  intros a b c. unfold edge_le, Edge_le.
  destruct (tuple_compare (as_tuple a) (as_tuple b)) eqn:Eab; [| |done].
  - apply tuple_compare_eq in Eab. by rewrite Eab.
  - destruct (tuple_compare (as_tuple b) (as_tuple c)) eqn:Ebc; [| |done].
    + apply tuple_compare_eq in Ebc. by rewrite <- Ebc, Eab.
    + by rewrite (tuple_compare_lt_trans _ _ _ Eab Ebc).
Qed.

Lemma sort_insert_HdRel (y x : Edge) (l : list Edge) :
  edge_le y x → HdRel edge_le y l → HdRel edge_le y (sort_insert x l).
Proof.
  intros Hyx Hy. destruct l as [|z l]; simpl; [by constructor|].
  apply HdRel_inv in Hy. destruct (Edge_lt z x); by constructor.
Qed.

Lemma sort_insert_Sorted (x : Edge) (l : list Edge) :
  Sorted edge_le l → Sorted edge_le (sort_insert x l).
Proof.
  induction 1 as [|y l Hl IH Hy]; simpl; [by repeat constructor|].
  destruct (Edge_lt y x) eqn:E.
  - constructor; [done|]. apply sort_insert_HdRel; [by apply Edge_lt_le|done].
  - repeat constructor; [done..|]. unfold edge_le. by rewrite Edge_le_lt, E.
Qed.

Lemma sort_Sorted (l : list Edge) : Sorted edge_le (sort l).
Proof. induction l; simpl; [constructor|by apply sort_insert_Sorted]. Qed.

Lemma sort_Sorted_id (l : list Edge) : Sorted edge_le l → sort l = l.
Proof.
  induction 1 as [|x l Hl IH Hx]; simpl; [done|]. rewrite IH.
  destruct Hx as [|y l Hxy]; simpl; [done|].
  unfold edge_le in Hxy. rewrite Edge_le_lt in Hxy. by destruct (Edge_lt y x).
Qed.

Lemma elem_of_sort_insert (e x : Edge) (l : list Edge) :
  e ∈ sort_insert x l ↔ e = x ∨ e ∈ l.
Proof.
  induction l as [|y l IH]; simpl.
  - rewrite list_elem_of_singleton, elem_of_nil. tauto.
  - destruct (Edge_lt y x); rewrite !elem_of_cons, ?IH; tauto.
Qed.

Lemma elem_of_sort (e : Edge) (l : list Edge) : e ∈ sort l ↔ e ∈ l.
Proof.
  induction l as [|x l IH]; simpl; [done|].
  by rewrite elem_of_sort_insert, elem_of_cons, IH.
Qed.

(** ** Loops that append copies *)

Lemma fold_left_inv {A B : Type} (P : B → Prop) (f : B → A → B) (l : list A) (b : B) :
  P b → (∀ b x, P b → P (f b x)) → P (fold_left f l b).
Proof. intros Hb Hf. revert b Hb. induction l; simpl; auto. Qed.

Lemma indices_from_lookup {A : Type} (p : A → bool) (f : A → A) (pre l : list A) :
  omap (λ i, f <$> (pre ++ l) !! i) (indices_from p (length pre) l)
  = f <$> filter (λ x, p x = true) l.
Proof.
  revert pre. induction l as [|x l IH]; intros pre; simpl; [done|].
  assert (E : ∀ q, indices_from p (S (length pre)) l = q →
              omap (λ i, f <$> (pre ++ x :: l) !! i) q = f <$> filter (λ x, p x = true) l).
  { intros q <-. specialize (IH (pre ++ [x])).
    rewrite length_app, <- app_assoc in IH. simpl in IH.
    by rewrite Nat.add_1_r in IH. }
  rewrite filter_cons. destruct (p x) eqn:Ep.
  - rewrite decide_True by done. simpl.
    rewrite lookup_app_r, Nat.sub_diag by lia. simpl. f_equal. by apply E.
  - rewrite decide_False by done. by apply E.
Qed.

Lemma indices_from_lt {A : Type} (p : A → bool) (i : nat) (l : list A) :
  Forall (λ j, (j < i + length l)%nat) (indices_from p i l).
Proof.
  revert i. induction l as [|x l IH]; intros i; simpl; [constructor|].
  specialize (IH (S i)).
  assert (IH' : Forall (λ j, (j < i + S (length l))%nat) (indices_from p (S i) l))
    by (eapply Forall_impl; [exact IH|simpl; intros; lia]).
  destruct (p x); [constructor; [lia|done]|done].
Qed.

Lemma append_copies_app (f : Edge → Edge) (es : list Edge) (idxs : list nat)
    (extra : list Edge) :
  Forall (λ j, (j < length es)%nat) idxs →
  append_copies f idxs (es ++ extra) = es ++ extra ++ omap (λ i, f <$> es !! i) idxs.
Proof.
  unfold append_copies. revert extra.
  induction idxs as [|i idxs IH]; intros extra Hlt; simpl.
  - by rewrite app_nil_r.
  - apply Forall_cons in Hlt as [Hi Hlt].
    rewrite lookup_app_l by done.
    destruct (lookup_lt_is_Some_2 es i Hi) as [e He]. rewrite He. simpl.
    rewrite <- app_assoc, IH by done. by rewrite <- app_assoc.
Qed.

(** The copies are those of the edges the test selects, in list order. *)
Lemma append_copies_filter (f : Edge → Edge) (p : Edge → bool) (es : list Edge) :
  append_copies f (indices_where p es) es = es ++ (f <$> filter (λ e, p e = true) es).
Proof.
  rewrite <- (app_nil_r es) at 2.
  rewrite append_copies_app by apply (indices_from_lt p 0 es).
  simpl. f_equal. apply (indices_from_lookup p f [] es).
Qed.

(** ** Asg.run: edges into one state carry one label *)

Lemma same_target_same_label_snoc (es : list Edge) (e : Edge) :
  same_target_same_label es →
  (∀ e', e' ∈ es → target_state_idx e' = target_state_idx e → label e' = label e) →
  same_target_same_label (es ++ [e]).
Proof.
  intros HT He e1 e2 H1 H2 Ht.
  apply elem_of_app in H1 as [H1|H1%list_elem_of_singleton];
    apply elem_of_app in H2 as [H2|H2%list_elem_of_singleton]; subst.
  - by apply HT.
  - by apply He.
  - symmetry. by apply He.
  - done.
Qed.

Lemma asg_add_label_creating (rep_index n : Z) (st : Asg.build) (il : Z * Label) :
  asg_creating st → asg_creating (Asg.add_label rep_index n st il).
Proof.
  intros (HT & Hle & Htr & Hbl). destruct il as [i lab].
  unfold asg_creating, Asg.add_label. simpl. split_and!.
  - apply same_target_same_label_snoc; [done|]. simpl.
    intros e' He' Ht. specialize (Hle _ He'). lia.
  - intros e [He|He%list_elem_of_singleton]%elem_of_app; [|subst e; simpl; lia].
    specialize (Hle _ He). lia.
  - lia.
  - intros e [He|He%list_elem_of_singleton]%elem_of_app; [|subst e; simpl; lia].
    specialize (Hle _ He). lia.
Qed.

Lemma asg_add_word_creating (a : Asg.t) (m : Z) (st : Asg.build) (ir : Z * list Label) :
  asg_creating st → asg_creating (Asg.add_word a m st ir).
Proof.
  intros Hst. destruct ir as [rep_index rep_label]. unfold Asg.add_word.
  set (st1 := fold_left _ _ st).
  assert (H1 : asg_creating st1) by (apply fold_left_inv; auto using asg_add_label_creating).
  destruct (Asg.separator a && (rep_index <? m - 1)); [|done].
  destruct H1 as (HT & Hle & Htr & Hbl). unfold asg_creating. simpl. split_and!.
  - apply same_target_same_label_snoc; [done|]. simpl. intros e' He' Ht. by apply Hbl.
  - intros e [He|He%list_elem_of_singleton]%elem_of_app; [|subst e; simpl; lia].
    specialize (Hle _ He). lia.
  - lia.
  - intros e [He|He%list_elem_of_singleton]%elem_of_app; [|by subst e]. by apply Hbl.
Qed.

Lemma asg_create_states_creating (a : Asg.t) (g : Graph) :
  edges g = [] → asg_creating (Asg.create_states a g).
Proof.
  intros Hg. unfold Asg.create_states. apply fold_left_inv.
  - rewrite Hg. unfold asg_creating. simpl.
    split_and!; [|intros e []%elem_of_nil|done|intros e []%elem_of_nil].
    intros e1 e2 []%elem_of_nil.
  - intros st ir. apply asg_add_word_creating.
Qed.

Lemma asg_add_loops_same_label (ns : Z) (es : list Edge) :
  same_target_same_label es → same_target_same_label (Asg.add_loops ns es).
Proof.
  intros HT. unfold Asg.add_loops. apply fold_left_inv; [done|].
  clear. intros es loop_idx HT. rewrite append_copies_filter.
  assert (Horig : ∀ e, e ∈ es ++ (Asg.loop_copy <$> filter (λ e, Asg.wants_loop loop_idx e = true) es) →
            ∃ e0, e0 ∈ es ∧ target_state_idx e = target_state_idx e0 ∧ label e = label e0).
  { intros e [He|He]%elem_of_app; [by exists e|].
    apply list_elem_of_fmap in He as (e0 & -> & He0).
    apply list_elem_of_filter in He0 as [_ He0]. by exists e0. }
  intros e1 e2 (o1 & Ho1 & Ht1 & Hl1)%Horig (o2 & Ho2 & Ht2 & Hl2)%Horig Ht.
  rewrite Hl1, Hl2. apply HT; [done..|congruence].
Qed.

Lemma sort_same_label (es : list Edge) :
  same_target_same_label es → same_target_same_label (sort es).
Proof.
  intros HT e1 e2 H1 H2 Ht. rewrite elem_of_sort in H1, H2. by apply (HT e1 e2).
Qed.

(** The conversion of two edges in order that carry the same label when
    they have the same target leaves them in order. *)
Lemma set_label_edge_le (e1 e2 : Edge) (l1 l2 : Label) :
  edge_le e1 e2 →
  (target_state_idx e1 = target_state_idx e2 → l1 = l2 ∧ label e1 = label e2) →
  edge_le (set_label l1 e1) (set_label l2 e2).
Proof.
  unfold edge_le, Edge_le, as_tuple, tuple_compare. simpl.
  destruct (source_state_idx e1 ?= source_state_idx e2); simpl; [|done..].
  destruct (target_state_idx e1 ?= target_state_idx e2) eqn:Et; simpl; [|done..].
  apply Z.compare_eq in Et. intros Hle Hl. destruct (Hl Et) as [-> El].
  rewrite El in Hle. by rewrite label_compare_refl in *.
Qed.

Lemma label_conversion_Sorted (es es' : list Edge) :
  same_target_same_label es → Sorted edge_le es →
  Store.label_conversion es = Some es' → Sorted edge_le es'.
Proof.
  intros HT Hs Hc.
  assert (Hall : Forall2 (λ e e', ∃ l, Store.convert_label (label e) = Some l
                                      ∧ e' = set_label l e) es es').
  { unfold Store.label_conversion in Hc. rewrite mapM_Some in Hc.
    eapply Forall2_impl; [exact Hc|]. simpl. intros e e'.
    destruct (Store.convert_label (label e)) as [l|]; simpl; [|done].
    intros [= <-]. by exists l. }
  clear Hc. induction Hall as [|e e' es es' (l & Hl & ->) Hall IH]; [constructor|].
  apply Sorted_inv in Hs as [Hs Hhd]. constructor.
  - apply IH; [|done]. intros e1 e2 H1 H2. apply HT; by right.
  - destruct Hall as [|e2 e2' es2 es2' (l2 & Hl2 & ->) _]; constructor.
    apply HdRel_inv in Hhd. apply set_label_edge_le; [done|].
    intros Ht. assert (El : label e = label e2).
    { apply HT; [apply list_elem_of_here|apply list_elem_of_further, list_elem_of_here|done]. }
    split; [|done]. rewrite El in Hl. congruence.
Qed.

(** ** The finalized edges are sorted *)

(** C6.  On a graph whose working fields are clear (as [Graph.__init__]
    and every [run] leave them), the edge list that a [run] finalizes is
    sorted by [(source, target, label, weight)], every edge being below or
    equal to every edge behind it, and sorting it again changes nothing.  [Ctc.run] and [Hmm.run] sort last; [Asg.run] converts
    the labels after the sort, which keeps the order because the edges
    between the same two states carry the same label. *)
Theorem finalized_edges_sorted (g : Graph) :
  clean g →
  (∀ a g', Asg.run a g = Some g' →
     StronglySorted edge_le (edges_asg g') ∧ sort (edges_asg g') = edges_asg g')
  ∧ (∀ c c' g', Ctc.run c g = Some (c', g') →
       StronglySorted edge_le (edges_ctc g') ∧ sort (edges_ctc g') = edges_ctc g')
  ∧ (∀ fuel h g', Hmm.run fuel h g = Some g' →
       StronglySorted edge_le (edges_hmm g') ∧ sort (edges_hmm g') = edges_hmm g').
Proof.
  intros [_ Hedges].
  assert (Hid : ∀ es, Sorted edge_le es → StronglySorted edge_le es ∧ sort es = es).
  { intros es Hs. split; [|by apply sort_Sorted_id].
    by apply Sorted_StronglySorted; [apply edge_le_trans|]. }
  split_and!.
  - intros a g'. unfold Asg.run, Asg.working.
    set (st := Asg.create_states a g).
    set (es := sort (Asg.add_loops (Asg.b_num_states st) (Asg.b_edges st))).
    assert (HT : same_target_same_label es).
    { apply sort_same_label, asg_add_loops_same_label.
      by destruct (asg_create_states_creating a g Hedges). }
    assert (Hs : Sorted edge_le es) by apply sort_Sorted.
    destruct (Asg.label_conversion a).
    + destruct (Store.label_conversion es) as [es'|] eqn:Ec; simpl; [|done].
      intros [= <-]. simpl. by apply Hid, (label_conversion_Sorted es).
    + simpl. intros [= <-]. simpl. by apply Hid.
  - intros c c' g'. unfold Ctc.run, Ctc.working.
    destruct (Ctc.add_tail _ _ _) as [[ns2 es2]|]; simpl; [|done].
    destruct (Ctc.single_final_node _ _ _) as [[ns3 es3]|]; simpl; [|done].
    destruct (fold_leftM Ctc.add_loop _ _) as [es4|]; simpl; [|done].
    destruct (if negb (Ctc.label_conversion c =? 0) then _ else _) as [es5|]; simpl; [|done].
    intros [= <- <-]. simpl. apply Hid, sort_Sorted.
  - intros fuel h g'. unfold Hmm.run, Hmm.working.
    destruct (Hmm.expanded h g) as [[ns es]|]; simpl; [|done].
    destruct (Hmm.renumber fuel 0 es) as [es1|]; simpl; [|done].
    destruct (mapM (Hmm.tie_label h) _) as [es2|]; simpl; [|done].
    intros [= <-]. simpl. apply Hid, sort_Sorted.
Qed.

Lemma finalized_edges_sorted_witness :
  clean example_graph
  ∧ (StronglySorted edge_le
       (edges_asg (graph_after (Asg.run (Asg.mk 256 2 true false) example_graph)))
     ∧ sort (edges_asg (graph_after (Asg.run (Asg.mk 256 2 true false) example_graph)))
       = edges_asg (graph_after (Asg.run (Asg.mk 256 2 true false) example_graph)))
  ∧ (StronglySorted edge_le (edges_ctc (ctc_after (Ctc.run example_ctc example_graph)).2)
     ∧ sort (edges_ctc (ctc_after (Ctc.run example_ctc example_graph)).2)
       = edges_ctc (ctc_after (Ctc.run example_ctc example_graph)).2)
  ∧ (StronglySorted edge_le
       (edges_hmm (graph_after (Hmm.run 1000 example_hmm example_graph)))
     ∧ sort (edges_hmm (graph_after (Hmm.run 1000 example_hmm example_graph)))
       = edges_hmm (graph_after (Hmm.run 1000 example_hmm example_graph))).
Proof.
  assert (Hclean : clean example_graph) by (split; reflexivity).
  destruct (finalized_edges_sorted example_graph Hclean) as (HA & HC & HH).
  split; [exact Hclean|]. split; [|split].
  - apply (HA (Asg.mk 256 2 true false)). vm_compute. reflexivity.
  - apply (HC example_ctc (ctc_after (Ctc.run example_ctc example_graph)).1).
    vm_compute. reflexivity.
  - apply (HH 1000%nat example_hmm). vm_compute. reflexivity.
Defined.

(** ** Hmm.run: a swap of the renumbering exchanges two states in every edge *)

Lemma elem_of_indices_from {A : Type} (p : A → bool) (k : nat) (l : list A) (i : nat) :
  i ∈ indices_from p k l ↔ (k ≤ i)%nat ∧ ∃ x, l !! (i - k)%nat = Some x ∧ p x = true.
Proof.
  revert k. induction l as [|x l IH]; intros k; simpl.
  - rewrite elem_of_nil. split; [done|]. by intros (_ & y & Hy & _).
  - assert (Hrec : i ∈ indices_from p (S k) l
                   ↔ (k < i)%nat ∧ ∃ y, (x :: l) !! (i - k)%nat = Some y ∧ p y = true).
    { rewrite IH. split.
      - intros (Hk & y & Hy & Hp). split; [lia|]. exists y. split; [|done].
        replace (i - k)%nat with (S (i - S k)) by lia. done.
      - intros (Hk & y & Hy & Hp). split; [lia|]. exists y. split; [|done].
        replace (i - k)%nat with (S (i - S k)) in Hy by lia. done. }
    assert (Hhere : p x = true → i = k →
              (k ≤ i)%nat ∧ ∃ y, (x :: l) !! (i - k)%nat = Some y ∧ p y = true).
    { intros Hp ->. split; [done|]. exists x. by rewrite Nat.sub_diag. }
    destruct (p x) eqn:Ep.
    + rewrite elem_of_cons, Hrec. split.
      * intros [->|[Hk H]]; [by apply Hhere|]. split; [lia|done].
      * intros [Hk H]. destruct (decide (i = k)) as [->|Hne]; [by left|].
        right. split; [lia|done].
    + rewrite Hrec. split.
      * intros [Hk H]. split; [lia|done].
      * intros [Hk (y & Hy & Hp)]. destruct (decide (i = k)) as [->|Hne].
        -- rewrite Nat.sub_diag in Hy. simpl in Hy. congruence.
        -- split; [lia|]. by exists y.
Qed.

Lemma elem_of_indices_where {A : Type} (p : A → bool) (l : list A) (i : nat) :
  i ∈ indices_where p l ↔ ∃ x, l !! i = Some x ∧ p x = true.
Proof.
  unfold indices_where. rewrite elem_of_indices_from, Nat.sub_0_r.
  split; [by intros [_ H]|]. intros H. split; [lia|done].
Qed.

Lemma lookup_fold_insert (v : Z) (l : list nat) (d : gmap nat Z) (i : nat) :
  fold_left (λ d pos, <[pos := v]> d) l d !! i
  = if decide (i ∈ l) then Some v else d !! i.
Proof.
  revert d. induction l as [|k l IH]; intros d; simpl.
  - destruct (decide (i ∈ [])) as [[]%elem_of_nil|]; done.
  - rewrite IH. destruct (decide (i ∈ l)) as [Hin|Hnin].
    + destruct (decide (i ∈ k :: l)) as [|Hn]; [done|]. destruct Hn. by right.
    + rewrite lookup_insert. destruct (decide (k = i)) as [->|Hne].
      * destruct (decide (i ∈ i :: l)) as [|Hn]; [done|]. destruct Hn. by left.
      * destruct (decide (i ∈ k :: l)) as [[->|?]%elem_of_cons|]; done.
Qed.

Lemma elem_of_indices_where_at {A : Type} (p : A → bool) (l : list A) (i : nat) (x : A) :
  l !! i = Some x → i ∈ indices_where p l ↔ p x = true.
Proof.
  intros Hx. rewrite elem_of_indices_where. split.
  - intros (y & Hy & Hp). congruence.
  - intros Hp. by exists x.
Qed.

(** The dictionary of [_find_node_in_edges], read at one index. *)
Lemma lookup_find_node_in_edges (node : Z) (es : list Edge) (i : nat) :
  Hmm.find_node_in_edges node es !! i = es !! i ≫= node_code node.
Proof.
  unfold Hmm.find_node_in_edges. rewrite !lookup_fold_insert, lookup_empty.
  destruct (es !! i) as [e|] eqn:He; simpl.
  - unfold node_code.
    repeat match goal with
           | |- context [decide (i ∈ indices_where ?p es)] =>
               let H := fresh in
               destruct (decide (i ∈ indices_where p es)) as [H|H];
               rewrite (elem_of_indices_where_at p es i e He) in H
           end.
    all: destruct (bool_decide (source_state_idx e = node)),
           (bool_decide (target_state_idx e = node)); simpl in *; intuition congruence.
  - repeat (destruct (decide _) as [(e & He' & _)%elem_of_indices_where|_]; [congruence|]).
    done.
Qed.

Lemma node_code_values (node : Z) (e : Edge) (v : Z) :
  node_code node e = Some v → v = 0 ∨ v = 1 ∨ v = 2.
Proof. unfold node_code. repeat case_match; intros [= <-]; auto. Qed.

Lemma relabel_at_apply_code (to : Z) (es : list Edge) (k : nat) (v : Z) :
  v = 0 ∨ v = 1 ∨ v = 2 →
  Hmm.relabel_at to es (k, v) = Some (alter (apply_code to v) k es).
Proof. intros [->|[->| ->]]; reflexivity. Qed.

(** The loop over the keys of a dictionary, read at one index. *)
Lemma fold_relabel_at (to : Z) (kvs : list (nat * Z)) (es : list Edge) :
  NoDup kvs.*1 →
  (∀ k v, (k, v) ∈ kvs → v = 0 ∨ v = 1 ∨ v = 2) →
  ∃ es', fold_leftM (Hmm.relabel_at to) kvs es = Some es'
         ∧ ∀ i, es' !! i
                = (λ e, from_option (λ v, apply_code to v e) e
                          ((list_to_map kvs : gmap nat Z) !! i)) <$> es !! i.
Proof.
  revert es. induction kvs as [|[k v] kvs IH]; intros es Hnd Hv.
  - exists es. split; [done|]. intros i. simpl. rewrite lookup_empty.
    by destruct (es !! i).
  - apply NoDup_cons in Hnd as [Hk Hnd]. cbn [fold_leftM list_to_map foldr].
    rewrite relabel_at_apply_code by (apply (Hv k); left). simpl.
    destruct (IH (alter (apply_code to v) k es) Hnd) as (es' & E & Hes').
    { intros k' v' Hin. apply (Hv k'). by right. }
    exists es'. split; [done|]. intros i. rewrite Hes', lookup_insert.
    destruct (decide (k = i)) as [->|Hne].
    + rewrite list_lookup_alter. destruct (decide (i = i)) as [_|?]; [|done].
      rewrite (not_elem_of_list_to_map_1 _ i Hk). by destruct (es !! i).
    + by rewrite list_lookup_alter_ne.
Qed.

Lemma swap_one_edge (a b : Z) (e : Edge) :
  a ≠ b →
  from_option (λ v, apply_code a v (from_option (λ v, apply_code b v e) e (node_code a e)))
    (from_option (λ v, apply_code b v e) e (node_code a e)) (node_code b e)
  = relabel (transp a b) e.
Proof.
  intros Hab. destruct e as [s t l w lp ln iw ip ix ai wb we sc il].
  unfold node_code, relabel, transp, apply_code, set_source, set_target. simpl.
  repeat case_bool_decide; repeat case_decide; simpl; subst; try done; by f_equal.
Qed.

(** A swap exchanges the two states in every edge of the list. *)
Lemma swap_states_relabel (a b : Z) (es : list Edge) :
  a ≠ b → Hmm.swap_states a b es = Some (relabel (transp a b) <$> es).
Proof.
  intros Hab. unfold Hmm.swap_states.
  assert (Hvals : ∀ node k v,
            (k, v) ∈ map_to_list (Hmm.find_node_in_edges node es) → v = 0 ∨ v = 1 ∨ v = 2).
  { intros node k v Hin. apply elem_of_map_to_list in Hin.
    rewrite lookup_find_node_in_edges in Hin.
    destruct (es !! k) as [e|]; simpl in Hin; [|done]. by eapply node_code_values. }
  destruct (fold_relabel_at b (map_to_list (Hmm.find_node_in_edges a es)) es)
    as (es1 & E1 & H1); [apply NoDup_fst_map_to_list|apply Hvals|].
  destruct (fold_relabel_at a (map_to_list (Hmm.find_node_in_edges b es)) es1)
    as (es2 & E2 & H2); [apply NoDup_fst_map_to_list|apply Hvals|].
  rewrite E1. simpl. rewrite E2. f_equal.
  apply list_eq. intros i.
  rewrite H2, H1, !list_to_map_to_list, !lookup_find_node_in_edges, list_lookup_fmap.
  destruct (es !! i) as [e|]; simpl; [|done]. f_equal. by apply swap_one_edge.
Qed.

(** ** Hmm.run: the renumbering terminates on a list without a cycle *)

Lemma phi_ext (f g : Z → Z) (n : nat) :
  (∀ x, 0 ≤ x < Z.of_nat n → g x = f x) → phi g n = phi f n.
Proof.
  induction n as [|k IH]; intros H; simpl; [done|].
  rewrite IH by (intros x Hx; apply H; lia). rewrite (H (Z.of_nat k)) by lia. done.
Qed.

Lemma phi_upd (f g : Z → Z) (a : Z) (n : nat) :
  0 ≤ a < Z.of_nat n → (∀ x, x ≠ a → g x = f x) →
  phi g n = phi f n + a * (g a - f a).
Proof.
  induction n as [|k IH]; intros Ha H; simpl; [lia|].
  destruct (decide (a = Z.of_nat k)) as [->|Hne].
  - rewrite (phi_ext f g k) by (intros x Hx; apply H; lia). lia.
  - rewrite IH by (done || lia). rewrite (H (Z.of_nat k)) by done. lia.
Qed.

Lemma transp_invol (a b x : Z) : transp a b (transp a b x) = x.
Proof. unfold transp. repeat case_decide; congruence. Qed.

Lemma transp_range (a b n x : Z) :
  0 ≤ a < n → 0 ≤ b < n → 0 ≤ x < n ↔ 0 ≤ transp a b x < n.
Proof. unfold transp. repeat case_decide; lia. Qed.

(** A swap of [a] and [b] changes the sum by [(a - b) * (rk b - rk a)]. *)
Lemma phi_transp (rk : Z → Z) (a b : Z) (n : nat) :
  0 ≤ a < Z.of_nat n → 0 ≤ b < Z.of_nat n →
  phi (λ x, rk (transp a b x)) n = phi rk n + (a - b) * (rk b - rk a).
Proof.
  intros Ha Hb. destruct (decide (a = b)) as [->|Hab].
  - rewrite (phi_ext rk) by (intros x _; unfold transp; repeat case_decide; congruence).
    lia.
  - rewrite (phi_upd (<[a := rk b]> rk) _ b) by
      (done || (intros x Hx; unfold transp; repeat case_decide; subst;
                by rewrite ?fn_lookup_insert, ?fn_lookup_insert_ne)).
    rewrite (phi_upd rk (<[a := rk b]> rk) a) by
      (done || (intros x Hx; by rewrite fn_lookup_insert_ne)).
    rewrite fn_lookup_insert, fn_lookup_insert_ne by done.
    unfold transp. rewrite decide_False by done. rewrite decide_True by done. lia.
Qed.

Lemma phi_bound (rk : Z → Z) (M : Z) (n : nat) :
  0 ≤ M → (∀ x, 0 ≤ x < Z.of_nat n → Z.abs (rk x) ≤ M) →
  Z.abs (phi rk n) ≤ Z.of_nat n * Z.of_nat n * M.
Proof.
  intros HM. induction n as [|k IH]; intros H; simpl phi; [lia|].
  specialize (IH (λ x Hx, H x ltac:(lia))). specialize (H (Z.of_nat k) ltac:(lia)).
  assert (Z.abs (Z.of_nat k * rk (Z.of_nat k)) ≤ Z.of_nat k * M)
    by (rewrite Z.abs_mul; nia).
  nia.
Qed.

Lemma rank_bound_exists (rk : Z → Z) (n : nat) :
  ∃ M, 0 ≤ M ∧ ∀ x, 0 ≤ x < Z.of_nat n → Z.abs (rk x) ≤ M.
Proof.
  induction n as [|k (M & HM & H)].
  - exists 0. split; [done|]. lia.
  - exists (Z.max M (Z.abs (rk (Z.of_nat k)))). split; [lia|]. intros x Hx.
    destruct (decide (x = Z.of_nat k)) as [->|Hne]; [lia|].
    specialize (H x ltac:(lia)). lia.
Qed.

Lemma relabel_compose (f g : Z → Z) (e : Edge) :
  relabel f (relabel g e) = relabel (f ∘ g) e.
Proof. done. Qed.

Lemma relabel_id (e : Edge) : relabel id e = e.
Proof. by destruct e. Qed.

Lemma renumber_fuel_S (fuel : nat) (idx : nat) (es r : list Edge) :
  Hmm.renumber fuel idx es = Some r → Hmm.renumber (S fuel) idx es = Some r.
Proof.
  revert idx es. induction fuel as [|fuel IH]; intros idx es; [done|].
  intros H. simpl in H. change (Hmm.renumber (S (S fuel)) idx es) with
    (match es !! idx with
     | None => Some es
     | Some e =>
         if source_state_idx e >? target_state_idx e then
           es' ← Hmm.swap_states (source_state_idx e) (target_state_idx e) es;
           Hmm.renumber (S fuel) (0 + 1) es'
         else Hmm.renumber (S fuel) (idx + 1) es
     end).
  destruct (es !! idx) as [e|]; [|done].
  destruct (source_state_idx e >? target_state_idx e).
  - destruct (Hmm.swap_states _ _ es) as [es'|]; simpl in *; [|done]. by apply IH.
  - by apply IH.
Qed.

Lemma renumber_fuel_le (fuel fuel' : nat) (idx : nat) (es r : list Edge) :
  (fuel ≤ fuel')%nat → Hmm.renumber fuel idx es = Some r →
  Hmm.renumber fuel' idx es = Some r.
Proof.
  intros Hle Hr. induction Hle as [|m Hle IH]; [done|]. by apply renumber_fuel_S.
Qed.

(** A swap keeps what the renumbering started from, for the ranking that
    is exchanged with the states; the two states are not 0 or 1. *)
Lemma pass_inv_swap (n : nat) (rk : Z → Z) (es : list Edge) (e : Edge) :
  pass_inv n rk es → e ∈ es → source_state_idx e > target_state_idx e →
  pass_inv n (λ x, rk (transp (source_state_idx e) (target_state_idx e) x))
    (relabel (transp (source_state_idx e) (target_state_idx e)) <$> es)
  ∧ 0 ≤ target_state_idx e < Z.of_nat n ∧ 0 ≤ source_state_idx e < Z.of_nat n
  ∧ rk (source_state_idx e) < rk (target_state_idx e).
Proof.
  intros [(e0 & l & -> & Hs0 & Ht0) [Hrk Hin]] He Hgt.
  destruct (Hin e He) as (Ha & Hb & Hentry). pose proof (Hrk e He) as Hrke.
  assert (Hb2 : 2 ≤ target_state_idx e) by (destruct Hentry as [|(? & ? & _)]; lia).
  clear Hentry. revert Hgt Ha Hb Hb2 Hrke.
  generalize (source_state_idx e) as a, (target_state_idx e) as b.
  intros a b Hgt Ha Hb Hb2 Hrke.
  assert (Hfix : ∀ x, x < 2 → transp a b x = x)
    by (intros x Hx; unfold transp; repeat case_decide; lia).
  assert (Hge : ∀ x, 2 ≤ x → 2 ≤ transp a b x)
    by (intros x Hx; unfold transp; repeat case_decide; lia).
  split; [split|lia].
  - exists (relabel (transp a b) e0), (relabel (transp a b) <$> l).
    split; [done|]. simpl. rewrite Hs0, Ht0, !Hfix by lia. done.
  - split.
    + intros e' (e1 & -> & He1)%list_elem_of_fmap. simpl.
      rewrite !transp_invol. by apply Hrk.
    + intros e' (e1 & -> & He1)%list_elem_of_fmap. simpl.
      destruct (Hin e1 He1) as (Hs1 & Ht1 & Hentry1).
      pose proof (transp_range a b (Z.of_nat n) (source_state_idx e1)) as R1.
      pose proof (transp_range a b (Z.of_nat n) (target_state_idx e1)) as R2.
      split_and!; try lia.
      destruct Hentry1 as [H2|(Hs & Ht & Hl)].
      * left. simpl. by apply Hge.
      * right. simpl. rewrite Hs, Ht, !Hfix by lia. done.
Qed.

Lemma renaming_id (n : Z) : renaming n id id.
Proof. by split_and!. Qed.

Lemma renaming_transp (n a b : Z) (f g : Z → Z) :
  0 ≤ a < n → 0 ≤ b < n → renaming n f g →
  renaming n (f ∘ transp a b) (transp a b ∘ g).
Proof.
  intros Ha Hb (Hgf & Hfg & Hr). split_and!; intros x; simpl.
  - by rewrite Hgf, transp_invol.
  - by rewrite transp_invol, Hfg.
  - by rewrite (transp_range a b n x), Hr.
Qed.

(** The loop of the renumbering, from any index: on a list that has a
    ranking, starts with an edge from 0 to 1 and respects the entry, it
    ends, and what it returns has no edge that goes backwards and is the
    list it started from with the states renamed. *)
Lemma renumber_terminates (n : nat) (M : Z) :
  0 ≤ M →
  ∀ (m : nat) (rk : Z → Z) (es : list Edge) (idx : nat),
    pass_inv n rk es →
    (∀ x, 0 ≤ x < Z.of_nat n → Z.abs (rk x) ≤ M) →
    Z.of_nat n * Z.of_nat n * M - phi rk n ≤ Z.of_nat m →
    (∀ i e, es !! i = Some e → (1 ≤ i < idx)%nat →
       source_state_idx e ≤ target_state_idx e) →
    ∃ fuel es' f g,
      Hmm.renumber fuel idx es = Some es'
      ∧ es' = relabel f <$> es
      ∧ renaming (Z.of_nat n) f g
      ∧ monotone es'.
Proof.
  intros HM m. induction m as [m IHm] using lt_wf_ind.
  intros rk es idx Hinv Hb Hm.
  remember (length es - idx)%nat as d eqn:Ed. revert idx Ed.
  induction d as [|d IHd]; intros idx Ed Hpre.
  - exists 1%nat, es, id, id. simpl. rewrite lookup_ge_None_2 by lia.
    split_and!; [done| |apply renaming_id|].
    + rewrite <- (list_fmap_id es) at 1. apply list_fmap_ext. intros i e _.
      by rewrite relabel_id.
    + apply Forall_lookup. intros i e Hi. destruct i as [|i].
      * destruct Hinv as [(e0 & l & -> & Hs0 & Ht0) _]. injection Hi as <-. lia.
      * apply (Hpre (S i) e Hi). apply lookup_lt_Some in Hi. lia.
  - destruct (lookup_lt_is_Some_2 es idx) as [e He]; [lia|].
    destruct (source_state_idx e >? target_state_idx e) eqn:Egt.
    + apply Z.gtb_lt in Egt.
      assert (Hin : e ∈ es) by (by eapply list_elem_of_lookup_2).
      destruct (pass_inv_swap n rk es e Hinv Hin ltac:(lia)) as (Hinv' & Hbr & Har & Hrk).
      pose proof (phi_transp rk _ _ n Har Hbr) as Hphi.
      assert (Hb' : ∀ x, 0 ≤ x < Z.of_nat n →
                Z.abs (rk (transp (source_state_idx e) (target_state_idx e) x)) ≤ M).
      { intros x Hx. apply Hb. by apply transp_range. }
      pose proof (phi_bound _ M n HM Hb') as Hbound.
      destruct (IHm (m - 1)%nat ltac:(nia) _ _ 1%nat Hinv' Hb' ltac:(nia))
        as (fuel & es' & f & g & Hr & -> & Hren & Hmono); [intros i e' _ Hi; lia|].
      exists (S fuel), (relabel f <$> (relabel (transp (source_state_idx e)
                                          (target_state_idx e)) <$> es)),
        (f ∘ transp (source_state_idx e) (target_state_idx e)),
        (transp (source_state_idx e) (target_state_idx e) ∘ g).
      split_and!; [|by rewrite <- list_fmap_compose|by apply renaming_transp|done].
      simpl. rewrite He. replace (source_state_idx e >? target_state_idx e) with true
        by (symmetry; apply Z.gtb_lt; lia).
      rewrite swap_states_relabel by lia. exact Hr.
    + destruct (IHd (S idx) ltac:(lia)) as (fuel & es' & f & g & Hr & -> & Hren & Hmono).
      { intros i e' Hi Hlt. destruct (decide (i = idx)) as [->|Hne].
        - rewrite He in Hi. injection Hi as <-. pose proof Egt as E.
          rewrite Z.gtb_ltb in E. apply Z.ltb_ge in E. lia.
        - apply (Hpre i e' Hi). lia. }
      exists (S fuel), (relabel f <$> es), f, g. split_and!; try done.
      simpl. rewrite He, Egt, Nat.add_1_r. exact Hr.
Qed.

(** ** Hmm.run: the edges before the renumbering have a ranking *)

Lemma fold_left_enumerate_inv {A St : Type} (P : Z → St → Prop) (f : St → Z * A → St)
    (l : list A) (i : Z) (st : St) :
  P i st →
  (∀ j x s, x ∈ l → i ≤ j < i + len l → P j s → P (j + 1) (f s (j, x))) →
  P (i + len l) (fold_left f (enumerate_from i l) st).
Proof.
  revert i st. induction l as [|x l IH]; intros i st Hst Hstep; simpl.
  - unfold len. simpl. by rewrite Z.add_0_r.
  - replace (i + len (x :: l)) with (i + 1 + len l) by (unfold len; simpl; lia).
    apply IH.
    + apply Hstep; [left|unfold len; simpl; lia|done].
    + intros j y s Hy Hj. apply Hstep; [by right|unfold len in *; simpl; lia].
Qed.

Lemma fold_leftM_enumerate_inv {A St : Type} (P : Z → St → Prop) (f : St → Z * A → option St)
    (l : list A) (i : Z) (st st' : St) :
  P i st →
  (∀ j x s s', x ∈ l → i ≤ j < i + len l → P j s → f s (j, x) = Some s' → P (j + 1) s') →
  fold_leftM f (enumerate_from i l) st = Some st' →
  P (i + len l) st'.
Proof.
  revert i st. induction l as [|x l IH]; intros i st Hst Hstep; simpl.
  - intros [= <-]. unfold len. simpl. by rewrite Z.add_0_r.
  - destruct (f st (i, x)) as [s1|] eqn:E; simpl; [|done]. intros Hfold.
    replace (i + len (x :: l)) with (i + 1 + len l) by (unfold len; simpl; lia).
    apply (IH (i + 1) s1); [| |done].
    + eapply Hstep; [left|unfold len; simpl; lia|done|done].
    + intros j y s s' Hy Hj. apply Hstep; [by right|unfold len in *; simpl; lia].
Qed.

Lemma fold_left_seqZ_inv {St : Type} (P : Z → St → Prop) (f : St → Z → St) (m : nat) (a : Z)
    (st : St) :
  P a st →
  (∀ j s, a ≤ j < a + Z.of_nat m → P j s → P (j + 1) (f s j)) →
  P (a + Z.of_nat m) (fold_left f (seqZ a (Z.of_nat m)) st).
Proof.
  revert a st. induction m as [|m IH]; intros a st Hst Hstep.
  - simpl. by rewrite Z.add_0_r.
  - rewrite seqZ_cons by lia. simpl.
    replace (Z.pred (Z.of_nat (S m))) with (Z.of_nat m) by lia.
    replace (a + Z.of_nat (S m)) with (Z.succ a + Z.of_nat m) by lia.
    apply IH.
    + replace (Z.succ a) with (a + 1) by lia. apply Hstep; [lia|done].
    + intros j s Hj. apply Hstep. lia.
Qed.

Lemma fold_left_prefix_inv {A St : Type} (P : list A → St → Prop) (f : St → A → St)
    (l : list A) (st : St) :
  P [] st →
  (∀ p x s, x ∈ l → P p s → P (p ++ [x]) (f s x)) →
  P l (fold_left f l st).
Proof.
  intros Hst Hstep.
  assert (H : ∀ q p s, (∀ x, x ∈ q → x ∈ l) → P p s → P (p ++ q) (fold_left f q s)).
  { induction q as [|x q IH]; intros p s Hq Hp; simpl.
    - by rewrite app_nil_r.
    - replace (p ++ x :: q) with ((p ++ [x]) ++ q) by (by rewrite <- app_assoc).
      apply IH; [intros y Hy; apply Hq; by right|].
      apply Hstep; [apply Hq; left|done]. }
  by apply (H l [] st).
Qed.

Lemma head_ok_app (es l : list Edge) : head_ok es → head_ok (es ++ l).
Proof. intros (e & l' & -> & H). by exists e, (l' ++ l). Qed.

Lemma rank_ok_subseteq (top : Z) (rk : Z → Z) (es es' : list Edge) :
  (∀ e, e ∈ es' → e ∈ es) → rank_ok top rk es → rank_ok top rk es'.
Proof. intros Hsub [Hrk Hin]. split; intros e He; [apply Hrk|apply Hin]; auto. Qed.

Lemma rank_ok_weaken (top top' : Z) (rk : Z → Z) (es : list Edge) :
  top ≤ top' → rank_ok top rk es → rank_ok top' rk es.
Proof.
  intros Hle [Hrk Hin]. split; [done|]. intros e He.
  destruct (Hin e He) as (? & ? & ?). split_and!; done || lia.
Qed.

(** A ranking that agrees on the states in use ranks the same edges. *)
Lemma rank_ok_agree (top : Z) (rk rk' : Z → Z) (es : list Edge) :
  (∀ x, 0 ≤ x ≤ top → rk' x = rk x) → rank_ok top rk es → rank_ok top rk' es.
Proof.
  intros Hag [Hrk Hin]. split; [|done]. intros e He.
  destruct (Hin e He) as (? & ? & _). rewrite !Hag by lia. by apply Hrk.
Qed.

(** An edge into the next unused state, which gets the rank [v]. *)
Lemma rank_ok_fresh (top : Z) (rk : Z → Z) (es : list Edge) (e : Edge) (v : Z) :
  rank_ok top rk es → 1 ≤ top →
  0 ≤ source_state_idx e ≤ top → target_state_idx e = top + 1 →
  rk (source_state_idx e) < v →
  rank_ok (top + 1) (<[top + 1 := v]> rk) (es ++ [e]).
Proof.
  intros Hok Htop Hs Ht Hv.
  assert (Hok' : rank_ok (top + 1) (<[top + 1 := v]> rk) es).
  { apply (rank_ok_weaken top); [lia|]. apply (rank_ok_agree top rk); [|done].
    intros x Hx. apply fn_lookup_insert_ne. lia. }
  destruct Hok' as [Hrk Hin]. split.
  - intros e' [He'|He'%list_elem_of_singleton]%elem_of_app; [by apply Hrk|]. subst e'.
    rewrite Ht, fn_lookup_insert, fn_lookup_insert_ne by lia. done.
  - intros e' [He'|He'%list_elem_of_singleton]%elem_of_app; [by apply Hin|]. subst e'.
    split_and!; try lia. left. lia.
Qed.

(** An edge between two states in use. *)
Lemma rank_ok_back (top : Z) (rk : Z → Z) (es : list Edge) (e : Edge) :
  rank_ok top rk es →
  0 ≤ source_state_idx e ≤ top → 2 ≤ target_state_idx e ≤ top →
  rk (source_state_idx e) < rk (target_state_idx e) →
  rank_ok top rk (es ++ [e]).
Proof.
  intros [Hrk Hin] Hs Ht Hlt. split.
  - intros e' [He'|He'%list_elem_of_singleton]%elem_of_app; [by apply Hrk|]. by subst e'.
  - intros e' [He'|He'%list_elem_of_singleton]%elem_of_app; [by apply Hin|]. subst e'.
    split_and!; try lia. left. lia.
Qed.

(** The end of a case of [hmm_add_phon_inv], once the ranking is chosen:
    the new edge goes into the next unused state or back into a state in
    use, and the facts about the split and merge states are arithmetic. *)
Ltac hmm_phon_case :=
  split_and!;
  [ by apply head_ok_app
  | first [ apply rank_ok_fresh | apply rank_ok_back ]; simpl; done || lia
  | lia
  | intros t [= <-]; lia
  | intros ?;
    first [ done
          | rewrite ?fn_lookup_insert; rewrite ?fn_lookup_insert_ne by lia;
            split_and!; intros; done || lia ] ].

Lemma hmm_add_phon_inv (word_idx pdl j k L i sc : Z) (lem : list string) (st : Hmm.build)
    (phon : string) :
  len lem = k → 0 ≤ i < k → k ≤ L →
  hmm_phon_inv pdl j k L i st →
  hmm_phon_inv pdl j k L (i + 1) (Hmm.add_phon word_idx pdl j lem sc st (i, phon)).
Proof.
  intros Hk Hi HL. unfold hmm_phon_inv, Hmm.add_phon. rewrite Hk.
  destruct st as [ns split merge tn es].
  cbn [Hmm.b_num_states Hmm.split_node Hmm.merge_node Hmm.target_node Hmm.b_edges].
  intros (rk & Hhd & Hok & Hns & Htn & Hsm). revert Hok Htn Hsm.
  destruct (Z.ltb_spec 0 (i + 1)); [|exfalso; lia].
  destruct (Z.ltb_spec i k); [|exfalso; lia].
  destruct (Z.eqb_spec pdl 1) as [Hp|Hp]; [|destruct (Z.eqb_spec j 0) as [Hj|Hj]];
    (destruct (Z.eqb_spec i 0) as [Hi0|Hi0], (Z.ltb_spec 0 i); try (exfalso; lia));
    (destruct (Z.eqb_spec i (k - 1)) as [Hlast|Hlast], (Z.ltb_spec (i + 1) k);
     try (exfalso; lia));
    cbn [negb andb]; cbv beta iota zeta;
    cbn [Hmm.b_num_states Hmm.split_node Hmm.merge_node Hmm.target_node Hmm.b_edges];
    intros Hok Htn Hsm.
  (* one pronunciation: the chain goes on *)
  1-4: exists (<[ns + 1 := rk ns + 1]> rk); hmm_phon_case.
  (* the first of several pronunciations *)
  1-4: destruct (Hsm Hp) as (Hsplit & Htip & _).
  - exists (<[ns + 1 := rk ns + L]> rk). hmm_phon_case.
  - exists (<[ns + 1 := rk ns + 1]> rk). hmm_phon_case.
  - exists (<[ns + 1 := rk split + L]> rk). specialize (Htip ltac:(lia)). hmm_phon_case.
  - exists (<[ns + 1 := rk ns + 1]> rk). specialize (Htip ltac:(lia)). hmm_phon_case.
  (* a later pronunciation *)
  - destruct (Hsm Hp) as (Hsplit & Hmerge & Hrkm & _). exists rk. hmm_phon_case.
  - destruct (Hsm Hp) as (Hsplit & Hmerge & Hrkm & _).
    exists (<[ns + 1 := rk split + 1]> rk). hmm_phon_case.
  - destruct (Hsm Hp) as (Hsplit & Hmerge & Hrkm & Htip). specialize (Htip ltac:(lia)).
    exists rk. hmm_phon_case.
  - destruct (Hsm Hp) as (Hsplit & Hmerge & Hrkm & Htip). specialize (Htip ltac:(lia)).
    exists (<[ns + 1 + 1 := rk split + (i + 1)]> rk). hmm_phon_case.
Qed.

Lemma split_space_go_len (l cur : list ascii) : 1 ≤ len (split_space_go cur l).
Proof.
  revert cur. induction l as [|c l IH]; intros cur; simpl.
  - unfold len. simpl. lia.
  - destruct (Ascii.eqb c " "); [|apply IH].
    specialize (IH []). unfold len in *. simpl. lia.
Qed.

Lemma split_space_len (s : string) : 1 ≤ len (split_space s).
Proof. apply split_space_go_len. Qed.

Lemma variant_bound_ge (phons : list (string * Z)) (p : string * Z) :
  p ∈ phons → len (split_space p.1) ≤ variant_bound phons.
Proof.
  induction phons as [|q phons IH]; [by intros []%elem_of_nil|].
  intros [->|Hp]%elem_of_cons; simpl; [lia|]. specialize (IH Hp). lia.
Qed.

(** Before the first phoneme of a pronunciation the states in use end at
    [num_states], and the split and merge states are those of the first
    pronunciation. *)
Lemma hmm_phon_inv_at_0 (pdl j k L : Z) (st : Hmm.build) :
  1 ≤ k →
  hmm_phon_inv pdl j k L 0 st ↔
  ∃ rk : Z → Z,
    head_ok (Hmm.b_edges st)
    ∧ rank_ok (Hmm.b_num_states st) rk (Hmm.b_edges st)
    ∧ 1 ≤ Hmm.b_num_states st
    ∧ (∀ t, Hmm.target_node st = Some t → 0 ≤ t ≤ Hmm.b_num_states st)
    ∧ (pdl ≠ 1 → j ≠ 0 →
       0 ≤ Hmm.split_node st ≤ Hmm.b_num_states st
       ∧ 2 ≤ Hmm.merge_node st ≤ Hmm.b_num_states st
       ∧ rk (Hmm.merge_node st) = rk (Hmm.split_node st) + L).
Proof.
  intros Hk. unfold hmm_phon_inv. cbn [Z.ltb Z.compare andb].
  rewrite ?andb_false_r. cbn [andb].
  split; intros (rk & Hhd & Hok & Hns & Htn & Hsm); exists rk;
    (do 4 (split; [done|])).
  - intros Hp Hj. specialize (Hsm Hp). destruct (Z.eqb_spec j 0); [done|].
    destruct Hsm as (? & ? & ? & _). done.
  - intros Hp. destruct (Z.eqb_spec j 0) as [Hj|Hj].
    + split_and!; intros; lia.
    + destruct (Hsm Hp Hj) as (? & ? & ?). split_and!; try done; lia.
Qed.

Lemma hmm_phon_inv_end (pdl j k L : Z) (st : Hmm.build) :
  1 ≤ k → 0 ≤ j → hmm_phon_inv pdl j k L k st → hmm_phon_inv pdl (j + 1) 1 L 0 st.
Proof.
  intros Hk Hj H. apply hmm_phon_inv_at_0; [done|]. revert H.
  unfold hmm_phon_inv. rewrite Z.ltb_irrefl, ?andb_false_r.
  intros (rk & Hhd & Hok & Hns & Htn & Hsm). exists rk.
  do 4 (split; [done|]).
  intros Hp _. specialize (Hsm Hp). destruct (Z.eqb_spec j 0).
  - destruct Hsm as (Hsplit & _ & Hmerge). destruct (Hmerge eq_refl) as (? & ? & ?).
    specialize (Hsplit ltac:(lia)). split_and!; done || lia.
  - destruct Hsm as (? & ? & ? & _). split_and!; done || lia.
Qed.

Lemma hmm_add_lemma_inv (word_idx pdl L j : Z) (st : Hmm.build) (p : string * Z) :
  0 ≤ j → len (split_space p.1) ≤ L →
  hmm_phon_inv pdl j 1 L 0 st →
  hmm_phon_inv pdl (j + 1) 1 L 0 (Hmm.add_lemma word_idx pdl st (j, p)).
Proof.
  intros Hj HL Hst. destruct p as [phon sc]. unfold Hmm.add_lemma. simpl in HL.
  pose proof (split_space_len phon) as Hk.
  apply (hmm_phon_inv_end pdl j (len (split_space phon))); [done..|].
  apply (fold_left_enumerate_inv
           (λ i s, hmm_phon_inv pdl j (len (split_space phon)) L i s) _ (split_space phon) 0).
  - apply hmm_phon_inv_at_0; [done|]. by apply (hmm_phon_inv_at_0 pdl j 1 L).
  - intros i x s _ Hi Hs. apply hmm_add_phon_inv; done || lia.
Qed.

(** The state after the two edges of the first word. *)
Lemma hmm_first_edges_inv (split merge : Z) (tn : option Z) :
  tn = None →
  hmm_phon_inv 1 0 1 1 0
    (Hmm.mkBuild (-1 + 2) split merge tn ([] ++ [new_Edge 0 1 SIL 0; new_Edge 0 1 EPS 0])).
Proof.
  intros ->. apply hmm_phon_inv_at_0; [done|]. exists id. simpl.
  split; [by eexists _, _|]. split; [|done].
  - split.
    + intros e He. repeat (apply elem_of_cons in He as [->|He]); simpl; try lia.
      by apply elem_of_nil in He.
    + intros e He. repeat (apply elem_of_cons in He as [->|He]); simpl;
        try (split_and!; try lia; right; auto).
      by apply elem_of_nil in He.
Qed.

Lemma hmm_add_word_inv (lex : Hmm.Lexicon) (i : Z) (st st' : Hmm.build) (word : string) :
  0 ≤ i → hmm_word_inv i st → Hmm.add_word lex st (i, word) = Some st' →
  hmm_word_inv (i + 1) st'.
Proof.
  intros Hi Hst. unfold Hmm.add_word.
  set (st0 := if i =? 0 then _ else st).
  assert (H0 : hmm_phon_inv 1 0 1 1 0 st0).
  { subst st0. destruct Hst as [(-> & Hns & Hes & Htn)|[Hpos Hst]].
    - simpl. rewrite Hns, Hes. by apply hmm_first_edges_inv.
    - destruct (Z.eqb_spec i 0); [lia|done]. }
  clearbody st0. destruct (lex !! word) as [phons|]; simpl; [|done].
  set (st1 := fold_left _ _ st0).
  assert (H1 : hmm_phon_inv (len phons) (0 + len phons) 1 (variant_bound phons) 0 st1).
  { apply (fold_left_enumerate_inv
             (λ j s, hmm_phon_inv (len phons) j 1 (variant_bound phons) 0 s)).
    - apply hmm_phon_inv_at_0; [done|]. apply hmm_phon_inv_at_0 in H0; [|done].
      destruct H0 as (rk & ? & ? & ? & ? & _). exists rk. by do 4 (split; [done|]).
    - intros j p s Hp Hj Hs. apply hmm_add_lemma_inv; [lia|by apply variant_bound_ge|done]. }
  clearbody st1. apply hmm_phon_inv_at_0 in H1; [|done].
  destruct H1 as (rk & Hhd & Hok & Hns & Htn & _).
  destruct (Hmm.target_node st1) as [tn|] eqn:Etn; simpl; [|done]. intros [= <-].
  specialize (Htn tn eq_refl). right. split; [lia|].
  apply hmm_phon_inv_at_0; [done|].
  exists (<[Hmm.b_num_states st1 + 1 := rk tn + 1]> rk).
  simpl. split_and!; try done.
  - by apply head_ok_app.
  - replace (Hmm.b_edges st1 ++ [new_Edge tn (Hmm.b_num_states st1 + 1) SIL 0;
                                   new_Edge tn (Hmm.b_num_states st1 + 1) EPS 0])
      with ((Hmm.b_edges st1 ++ [new_Edge tn (Hmm.b_num_states st1 + 1) SIL 0])
              ++ [new_Edge tn (Hmm.b_num_states st1 + 1) EPS 0])
      by (by rewrite <- app_assoc).
    apply rank_ok_back; simpl; try lia.
    + apply rank_ok_fresh; simpl; done || lia.
    + rewrite fn_lookup_insert, fn_lookup_insert_ne by lia. lia.
  - lia.
  - intros t [= <-]. lia.
Qed.

(** The edges of the words have a ranking. *)
Lemma hmm_word_states_ranked (h : Hmm.t) (g : Graph) (ns : Z) (es : list Edge) :
  clean g → Hmm.word_states h g = Some (ns, es) →
  es = [] ∨ ∃ rk, head_ok es ∧ rank_ok (ns - 1) rk es ∧ 2 ≤ ns.
Proof.
  intros [Hns Hes]. unfold Hmm.word_states.
  destruct (Hmm.lexicon h) as [lex|]; simpl; [|done].
  destruct (fold_leftM _ _ _) as [st|] eqn:Efold; simpl; [|done]. intros [= <- <-].
  assert (Hst : hmm_word_inv (0 + len (lem_list g)) st).
  { apply (fold_leftM_enumerate_inv hmm_word_inv (Hmm.add_word lex) (lem_list g) 0
             (Hmm.mkBuild (num_states g) 0 0 None (edges g))); [| |exact Efold].
    - left. by rewrite Hns, Hes.
    - intros j x s s' _ Hj. apply hmm_add_word_inv. lia. }
  destruct Hst as [(_ & _ & -> & _)|[_ Hst]]; [by left|].
  apply hmm_phon_inv_at_0 in Hst as (rk & Hhd & Hok & Hn & _); [|done].
  right. exists rk.
  split_and!; [done| |lia]. by replace (Hmm.b_num_states st + 1 - 1) with (Hmm.b_num_states st) by lia.
Qed.

(** An edge between two states in use, into state 1 or above it. *)
Lemma rank_ok_add (top : Z) (rk : Z → Z) (es : list Edge) (e : Edge) :
  rank_ok top rk es →
  0 ≤ source_state_idx e ≤ top → 0 ≤ target_state_idx e ≤ top → entry_ok e →
  rk (source_state_idx e) < rk (target_state_idx e) →
  rank_ok top rk (es ++ [e]).
Proof.
  intros [Hrk Hin] Hs Ht Hen Hlt. split.
  - intros e' [He'|He'%list_elem_of_singleton]%elem_of_app; [by apply Hrk|]. by subst e'.
  - intros e' [He'|He'%list_elem_of_singleton]%elem_of_app; [by apply Hin|]. by subst e'.
Qed.

Lemma rank_ok_fresh_eq (top top' : Z) (rk : Z → Z) (es : list Edge) (e : Edge) (v : Z) :
  top' = top + 1 → rank_ok top rk es → 1 ≤ top →
  0 ≤ source_state_idx e ≤ top → target_state_idx e = top' →
  rk (source_state_idx e) < v →
  rank_ok top' (<[top' := v]> rk) (es ++ [e]).
Proof. intros ->. apply rank_ok_fresh. Qed.

(** One allophone state of an edge that is expanded. *)
Lemma allo_state_step (K N : Z) (rk : Z → Z) (n : Z) (done tmp : list Edge) (x : Edge)
    (i : Z) (st : Z * Edge * list Edge) :
  2 ≤ K → 2 ≤ N →
  0 ≤ source_state_idx x < N → 2 ≤ target_state_idx x < N →
  rk (source_state_idx x) < rk (target_state_idx x) →
  allo_inv K N rk n (done ++ tmp) →
  0 ≤ i < K →
  allo_state_inv K N rk n done tmp x i st →
  allo_state_inv K N rk n done tmp x (i + 1) (Hmm.allo_state K (target_state_idx x) st i).
Proof.
  intros HK HN Hs Ht Hlt (rk0 & Hn & Hag0 & Hok0) Hi.
  assert (Hmul : K * rk (source_state_idx x) + K ≤ K * rk (target_state_idx x)) by nia.
  destruct st as [[n_i e_i] tmp_i]. unfold allo_state_inv, Hmm.allo_state.
  destruct (Z.eqb_spec (i + 1) 0) as [|_]; [lia|].
  destruct (Z.eqb_spec i 0) as [Hi0|Hi0].
  - (* the edge itself, into the first new state *)
    intros [= -> -> ->]. exists (<[n := K * rk (source_state_idx x) + 1]> rk0).
    split_and!; [done| | |lia].
    + intros y Hy. rewrite fn_lookup_insert_ne by lia. by apply Hag0.
    + intros _. rewrite fn_lookup_insert. split; [|lia].
      eapply rank_ok_subseteq;
        [|apply (rank_ok_fresh_eq (n - 1) n rk0 (done ++ tmp)
                   (set_allo_idx (Some i) (set_target n x)));
          simpl; try done; try lia].
      * intros e. rewrite !elem_of_app. tauto.
      * rewrite Hag0 by lia. lia.
  - intros (rk' & Hni & Hag & Hmid & _). destruct (Hmid ltac:(lia)) as [Hok Htip].
    destruct (Z.eqb_spec i (K - 1)) as [Hlast|Hlast].
    + (* the last state, into the target of the edge *)
      exists rk'. split_and!; [lia|done|lia|]. intros _.
      replace (n_i + 1 - 1) with n_i by lia.
      replace (done ++ [e_i] ++ tmp_i ++
               [set_target (target_state_idx x) (set_source n_i (set_allo_idx (Some i) e_i))])
        with ((done ++ [e_i] ++ tmp_i) ++
              [set_target (target_state_idx x) (set_source n_i (set_allo_idx (Some i) e_i))])
        by (by rewrite <- !app_assoc).
      apply rank_ok_back; simpl; try done; try lia.
      rewrite Htip, (Hag (target_state_idx x)) by lia. lia.
    + (* a state in between, into the next new state *)
      exists (<[n_i + 1 := K * rk (source_state_idx x) + (i + 1)]> rk').
      split_and!; [lia| | |lia].
      * intros y Hy. rewrite fn_lookup_insert_ne by lia. by apply Hag.
      * intros _. rewrite fn_lookup_insert. split; [|done].
        replace (done ++ [e_i] ++ tmp_i ++
                 [set_target (n_i + 1) (set_source n_i (set_allo_idx (Some i) e_i))])
          with ((done ++ [e_i] ++ tmp_i) ++
                [set_target (n_i + 1) (set_source n_i (set_allo_idx (Some i) e_i))])
          by (by rewrite <- !app_assoc).
        apply rank_ok_fresh; simpl; try done; lia.
Qed.

(** One edge of the allophone expansion. *)
Lemma allo_edge_step (K N : Z) (rk : Z → Z) (p : list Edge) (x : Edge)
    (st : Z * list Edge * list Edge) :
  2 ≤ K → 2 ≤ N →
  0 ≤ source_state_idx x < N → 0 ≤ target_state_idx x < N → entry_ok x →
  rk (source_state_idx x) < rk (target_state_idx x) →
  allo_edge_inv K N rk p st →
  allo_edge_inv K N rk (p ++ [x]) (Hmm.allo_edge K st x).
Proof.
  intros HK HN Hs Ht Hen Hlt. destruct st as [[n done] tmp].
  intros (Hinv & Hnil & Hhd). unfold Hmm.allo_edge.
  destruct (bool_decide (label x ≠ SIL) && bool_decide (label x ≠ EPS)) eqn:Eexp.
  - (* the edge is expanded *)
    apply andb_true_iff in Eexp as [Hsil%bool_decide_eq_true Heps%bool_decide_eq_true].
    assert (Ht2 : 2 ≤ target_state_idx x) by (destruct Hen as [|(_ & _ & [|])]; done).
    pose proof (fold_left_seqZ_inv (allo_state_inv K N rk n done tmp x)
                  (Hmm.allo_state K (target_state_idx x)) (Z.to_nat K) 0 (n, x, tmp)) as Hfold.
    unfold range. replace (K - 0) with (Z.of_nat (Z.to_nat K)) by lia.
    destruct (fold_left _ _ _) as [[n' e'] tmp'].
    assert (Hend : allo_state_inv K N rk n done tmp x (0 + Z.of_nat (Z.to_nat K))
                     (n', e', tmp')).
    { apply Hfold; [reflexivity|]. intros i s Hi. apply allo_state_step; done || lia. }
    clear Hfold. unfold allo_state_inv in Hend.
    replace (0 + Z.of_nat (Z.to_nat K) =? 0) with false in Hend
      by (symmetry; apply Z.eqb_neq; lia).
    destruct Hend as (rk' & Hn' & Hag & _ & Hend). specialize (Hend ltac:(lia)).
    split_and!.
    + exists rk'. split_and!; [done|done|]. by rewrite <- app_assoc.
    + intros Hnil'. by destruct p.
    + intros Hp. destruct p as [|y p].
      * destruct Hp as (e0 & l & [= <- <-] & _ & Ht1). lia.
      * apply head_ok_app, Hhd. destruct Hp as (e0 & l & [= <- <-] & ? & ?).
        by eexists _, _.
  - (* the edge stays *)
    destruct Hinv as (rk' & Hn & Hag & Hok). split_and!.
    + exists rk'. split_and!; [done|done|].
      eapply rank_ok_subseteq;
        [|apply (rank_ok_add (n - 1) rk' (done ++ tmp) x); try done; try lia].
      * intros e. rewrite !elem_of_app. tauto.
      * rewrite !Hag by lia. nia.
    + intros Hnil'. by destruct p.
    + intros Hp. destruct p as [|y p].
      * rewrite (Hnil eq_refl). exact Hp.
      * apply head_ok_app, Hhd. destruct Hp as (e0 & l & [= <- <-] & ? & ?).
        by eexists _, _.
Qed.

(** The allophone expansion keeps the edges ranked. *)
Lemma allo_expand_ranked (K ns : Z) (es : list Edge) :
  es = [] ∨ (∃ rk, head_ok es ∧ rank_ok (ns - 1) rk es ∧ 2 ≤ ns) →
  (Hmm.allo_expand K ns es).2 = []
  ∨ ∃ rk, head_ok (Hmm.allo_expand K ns es).2
          ∧ rank_ok ((Hmm.allo_expand K ns es).1 - 1) rk (Hmm.allo_expand K ns es).2
          ∧ 2 ≤ (Hmm.allo_expand K ns es).1.
Proof.
  intros [->|(rk & Hhd & Hok & Hns)]; unfold Hmm.allo_expand.
  - destruct (K >? 1); by left.
  - destruct (Z.gtb_spec K 1) as [HK|HK]; [|right; by exists rk].
    pose proof (fold_left_prefix_inv (allo_edge_inv K ns rk) (Hmm.allo_edge K) es
                  (ns, [], [])) as Hfold.
    destruct (fold_left _ _ _) as [[n' done] tmp].
    destruct Hfold as ((rk' & Hn' & _ & Hok') & _ & Hhd').
    { split_and!; [|done|by intros (? & ? & [=] & _)].
      exists (λ x, K * rk x). split_and!; [done|done|].
      split; [intros e []%elem_of_nil|intros e []%elem_of_nil]. }
    { intros p x s Hx. destruct Hok as [Hrk Hin].
      destruct (Hin x Hx) as (? & ? & ?).
      apply allo_edge_step; try done; try lia. by apply Hrk. }
    right. exists rk'. simpl. split_and!; [by apply head_ok_app, Hhd'|done|lia].
Qed.

(** ** The state renumbering of Hmm.run *)

(** On a list of edges taken by itself the loop restarts at index 1 after a
    swap, not at index 0: an edge at index 0 that a swap turns backwards
    stays so.  In [Hmm.run] the edge at index 0 goes from state 0 to state
    1, and no swap touches these two states. *)
Example renumber_restarts_at_index_1 :
  tuples <$> Hmm.renumber 10 0 [new_Edge 1 2 SIL 0; new_Edge 2 0 SIL 0]
  = Some [(1, 0, SIL, 0); (0, 2, SIL, 0)].
Proof. reflexivity. Qed.

(** C1.  On a graph with clear working fields, whatever the lexicon, the
    words and the number of allophone states: the renumbering of the edges
    that [Hmm.run] has built ends (with enough fuel the loop returns, and
    more fuel returns the same); the list it returns has no edge whose
    source is above its target; and it is the list before the renumbering
    with the states renamed by a bijection of the states below the count. *)
Theorem renumbering_terminates_monotone (h : Hmm.t) (g : Graph) (ns : Z) (es : list Edge) :
  clean g → Hmm.expanded h g = Some (ns, es) →
  ∃ fuel es' f finv,
    (∀ fuel', (fuel ≤ fuel')%nat → Hmm.renumber fuel' 0 es = Some es')
    ∧ monotone es'
    ∧ es' = relabel f <$> es
    ∧ renaming ns f finv.
Proof.
  intros Hclean. unfold Hmm.expanded.
  destruct (Hmm.word_states h g) as [[ns0 es0]|] eqn:Ew; simpl; [|done].
  intros Hex.
  pose proof (allo_expand_ranked (Hmm.allo_num_states h) ns0 es0
                (hmm_word_states_ranked h g ns0 es0 Hclean Ew)) as Hr.
  injection Hex as Hex. rewrite Hex in Hr. simpl in Hr. clear Hex Ew.
  destruct Hr as [->|(rk & Hhd & Hok & Hns)].
  - exists 1%nat, [], id, id. split_and!; [|constructor|done|apply renaming_id].
    intros fuel' Hle. by apply (renumber_fuel_le 1).
  - destruct (rank_bound_exists rk (Z.to_nat ns)) as (M & HM & Hb).
    destruct (renumber_terminates (Z.to_nat ns) M HM
                (Z.to_nat (Z.of_nat (Z.to_nat ns) * Z.of_nat (Z.to_nat ns) * M
                           - phi rk (Z.to_nat ns))) rk es 0)
      as (fuel & es' & f & finv & Hrun & -> & Hren & Hmono); [|done|lia| |].
    + split; [done|]. by replace (Z.of_nat (Z.to_nat ns) - 1) with (ns - 1) by lia.
    + intros i e _ Hi. lia.
    + exists fuel, (relabel f <$> es), f, finv. split_and!; [|done|done|].
      * intros fuel' Hle. by apply (renumber_fuel_le fuel).
      * by replace ns with (Z.of_nat (Z.to_nat ns)) by lia.
Qed.

Lemma renumbering_terminates_monotone_witness :
  ∃ fuel es' f finv,
    (∀ fuel', (fuel ≤ fuel')%nat →
       Hmm.renumber fuel' 0 (expanded_after (Hmm.expanded example_hmm example_graph)).2
       = Some es')
    ∧ monotone es'
    ∧ es' = relabel f <$> (expanded_after (Hmm.expanded example_hmm example_graph)).2
    ∧ renaming (expanded_after (Hmm.expanded example_hmm example_graph)).1 f finv.
Proof.
  apply (renumbering_terminates_monotone example_hmm example_graph).
  - split; reflexivity.
  - vm_compute. reflexivity.
Defined.

(** * Further properties *)

(** ** FastBwFsaShared: the state count *)

Lemma least_count_app (l1 l2 : list Z) :
  least_count (l1 ++ l2) = Z.max (least_count l1) (least_count l2).
Proof.
  unfold least_count. induction l1 as [|s l1 IH]; simpl.
  - assert (H : ∀ l, 1 ≤ foldr (λ s acc, Z.max (s + 1) acc) 1 l)
      by (induction l; simpl; lia).
    specialize (H l2). lia.
  - rewrite IH. lia.
Qed.

Lemma least_count_bound (l : list Z) : 1 ≤ least_count l ∧ ∀ s, s ∈ l → s < least_count l.
Proof.
  unfold least_count. induction l as [|x l [IH1 IH2]]; simpl.
  - split; [lia|]. intros s []%elem_of_nil.
  - split; [lia|]. intros s [->|Hs]%elem_of_cons; [lia|]. specialize (IH2 s Hs). lia.
Qed.

Lemma states_of_snoc (es : list Edge) (e : Edge) :
  states_of (es ++ [e]) = states_of es ++ [source_state_idx e; target_state_idx e].
Proof. unfold states_of. rewrite bind_app. reflexivity. Qed.

Lemma add_edge_least_count (f : FastBwFsaShared.t) (s t e w : Z) :
  FastBwFsaShared.num_states f = least_count (states_of (FastBwFsaShared.edges f)) →
  FastBwFsaShared.num_states (FastBwFsaShared.add_edge f s t e w)
  = least_count (states_of (FastBwFsaShared.edges (FastBwFsaShared.add_edge f s t e w))).
Proof.
  intros H. simpl.
  destruct (least_count_bound (states_of (FastBwFsaShared.edges f))) as [H1 _].
  rewrite <- H in H1.
  rewrite states_of_snoc, least_count_app, <- H. unfold least_count. simpl. lia.
Qed.

(** X1.  In an automaton built with [add_edge] and [add_inf_loop] from a
    new [FastBwFsaShared], [num_states] is the least count that is
    positive and above every state an edge refers to: it is at least 1, and
    the source and the target of every edge are below it. *)
Theorem fast_bw_num_states_least_count (f : FastBwFsaShared.t) :
  fast_bw_built f →
  FastBwFsaShared.num_states f = least_count (states_of (FastBwFsaShared.edges f))
  ∧ 1 ≤ FastBwFsaShared.num_states f
  ∧ ∀ e, e ∈ FastBwFsaShared.edges f →
      source_state_idx e < FastBwFsaShared.num_states f
      ∧ target_state_idx e < FastBwFsaShared.num_states f.
Proof.
  intros Hb.
  assert (H : FastBwFsaShared.num_states f = least_count (states_of (FastBwFsaShared.edges f))).
  { induction Hb as [|f s t e w _ IH|f s n _ IH].
    - reflexivity.
    - by apply add_edge_least_count.
    - unfold FastBwFsaShared.add_inf_loop. apply fold_left_inv; [done|].
      intros b x. apply add_edge_least_count. }
  split; [done|]. rewrite H.
  destruct (least_count_bound (states_of (FastBwFsaShared.edges f))) as [H1 H2].
  split; [done|]. intros e He.
  split; apply H2; unfold states_of; apply list_elem_of_bind; exists e; (split; [|done]).
  - left.
  - right. left.
Qed.

Lemma fast_bw_num_states_least_count_witness :
  let f := FastBwFsaShared.add_inf_loop (FastBwFsaShared.add_edge FastBwFsaShared.init 0 4 7 0) 2 3 in
  FastBwFsaShared.num_states f = least_count (states_of (FastBwFsaShared.edges f))
  ∧ 1 ≤ FastBwFsaShared.num_states f
  ∧ ∀ e, e ∈ FastBwFsaShared.edges f →
      source_state_idx e < FastBwFsaShared.num_states f
      ∧ target_state_idx e < FastBwFsaShared.num_states f.
Proof.
  apply fast_bw_num_states_least_count. apply built_add_inf_loop, built_add_edge, built_init.
Defined.

(** ** FastBwFsaShared: the arrays of a batch *)

Lemma np_set_app {A : Type} (pre rest : list A) (z v : A) (j : Z) :
  j = len pre → np_set (pre ++ z :: rest) j v = Some (pre ++ v :: rest).
Proof.
  intros ->. unfold np_set, len. rewrite length_app. simpl.
  replace (0 <=? Z.of_nat (length pre)) with true by (symmetry; apply Z.leb_le; lia).
  replace (Z.of_nat (length pre) <? Z.of_nat (length pre + S (length rest))) with true
    by (symmetry; apply Z.ltb_lt; lia).
  simpl. rewrite Nat2Z.id, insert_app_r_alt, Nat.sub_diag by lia. done.
Qed.

(** The writes of one pass over a list fill the zeros behind what has been
    written, when every value is converted without an exception. *)
Lemma np_fill_row {A B : Type} (zero : A) (w : B → option A) (g : B → A) (c : Z) (l : list B) :
  ∀ (i : Z) (pre : list A) (k : nat),
    (∀ x, x ∈ l → w x = Some (g x)) →
    c + i = len pre → (length l ≤ k)%nat →
    fold_leftM (λ res (ix : Z * B), let '(i, x) := ix in v ← w x; np_set res (c + i) v)
      (enumerate_from i l) (pre ++ replicate k zero)
    = Some (pre ++ (g <$> l) ++ replicate (k - length l) zero).
Proof.
  induction l as [|x l IH]; intros i pre k Hw Hi Hk; simpl.
  - by rewrite Nat.sub_0_r.
  - simpl in Hk. destruct k as [|k]; [lia|]. simpl.
    rewrite (Hw x) by left. simpl. rewrite np_set_app by done. simpl.
    replace (pre ++ g x :: replicate k zero) with ((pre ++ [g x]) ++ replicate k zero)
      by (by rewrite <- app_assoc).
    rewrite IH; [by rewrite <- app_assoc| | |lia].
    + intros y Hy. apply Hw. by right.
    + unfold len in *. rewrite length_app. simpl. lia.
Qed.

Lemma np_fill_batches {A : Type} (zero : A) (w : Z → Edge → option A) (val : Z → Edge → A)
    (es : list Edge) :
  ∀ (k : nat) (b : Z) (pre : list A),
    (∀ b' e, b ≤ b' < b + Z.of_nat k → e ∈ es → w b' e = Some (val b' e)) →
    b * len es = len pre →
    fold_leftM (λ res batch_idx,
        fold_leftM (λ res (ie : Z * Edge),
            let '(edge_idx, edge) := ie in
            v ← w batch_idx edge; np_set res (batch_idx * len es + edge_idx) v)
          (enumerate es) res)
      (seqZ b (Z.of_nat k)) (pre ++ replicate (k * length es) zero)
    = Some (pre ++ (seqZ b (Z.of_nat k) ≫= λ b, val b <$> es)).
Proof.
  induction k as [|k IH]; intros b pre Hw Hb.
  - simpl. by rewrite !app_nil_r.
  - rewrite seqZ_cons by lia. replace (Z.pred (Z.of_nat (S k))) with (Z.of_nat k) by lia.
    simpl. unfold enumerate.
    rewrite (np_fill_row zero (w b) (val b) (b * len es) es 0 pre);
      [|intros e He; apply Hw; [lia|done]|lia|lia].
    simpl. replace (length es + k * length es - length es)%nat with (k * length es)%nat by lia.
    rewrite app_assoc, IH; [by rewrite <- app_assoc| |].
    + intros b' e Hb' He. apply Hw; [lia|done].
    + unfold len in *. rewrite length_app, length_fmap. lia.
Qed.

Lemma np_fill_range {A : Type} (zero : A) (w : Z → option A) (val : Z → A) :
  ∀ (k : nat) (b : Z) (pre : list A),
    (∀ b', b ≤ b' < b + Z.of_nat k → w b' = Some (val b')) →
    b = len pre →
    fold_leftM (λ res batch_idx, v ← w batch_idx; np_set res batch_idx v)
      (seqZ b (Z.of_nat k)) (pre ++ replicate k zero)
    = Some (pre ++ (val <$> seqZ b (Z.of_nat k))).
Proof.
  induction k as [|k IH]; intros b pre Hw Hb.
  - simpl. by rewrite !app_nil_r.
  - rewrite seqZ_cons by lia. replace (Z.pred (Z.of_nat (S k))) with (Z.of_nat k) by lia.
    simpl. rewrite Hw by lia. simpl. rewrite np_set_app by done. simpl.
    replace (pre ++ val b :: replicate k zero) with ((pre ++ [val b]) ++ replicate k zero)
      by (by rewrite <- app_assoc).
    rewrite IH; [by rewrite <- app_assoc| |].
    + intros b' Hb'. apply Hw. lia.
    + unfold len. rewrite length_app. simpl. unfold len in Hb. lia.
Qed.

Lemma length_bind_const {A B : Type} (f : A → list B) (m : nat) (l : list A) :
  (∀ x, length (f x) = m) → length (l ≫= f) = (length l * m)%nat.
Proof.
  intros Hf. induction l as [|x l IH]; [done|].
  change ((x :: l) ≫= f) with (f x ++ (l ≫= f)). rewrite length_app, Hf, IH. simpl. lia.
Qed.

Lemma lookup_bind_const {A B : Type} (f : A → list B) (m : nat) (l : list A) :
  (∀ x, length (f x) = m) →
  ∀ (j i : nat) (x : A), l !! j = Some x → (i < m)%nat → (l ≫= f) !! (j * m + i)%nat = f x !! i.
Proof.
  intros Hf. induction l as [|y l IH]; intros j i x Hj Hi; [done|].
  change ((y :: l) ≫= f) with (f y ++ (l ≫= f)). destruct j as [|j]; simpl in *.
  - injection Hj as ->. apply lookup_app_l. by rewrite Hf.
  - rewrite lookup_app_r by (rewrite Hf; lia).
    rewrite Hf. replace (m + j * m + i - m)%nat with (j * m + i)%nat by lia. by apply IH.
Qed.

Lemma len_range (n : Z) : 0 ≤ n → len (range 0 n) = n.
Proof. intros Hn. unfold len, range. rewrite length_seqZ. lia. Qed.

(** The two arrays in one piece, when numpy stores what it is given. *)
Lemma get_edges_closed (np : Numpy) (f : FastBwFsaShared.t) (n_batch : Z) :
  stores_int32 np → batch_fits_int32 f n_batch → 0 ≤ n_batch →
  FastBwFsaShared.get_edges np f n_batch
  = Some (range 0 n_batch ≫= λ b, batch_column f b <$> FastBwFsaShared.edges f).
Proof.
  intros [Hnp _] Hfit Hn. unfold FastBwFsaShared.get_edges, np_zeros, range.
  replace (len (FastBwFsaShared.edges f) * n_batch <? 0) with false
    by (symmetry; apply Z.ltb_ge; unfold len; nia).
  simpl.
  replace (Z.to_nat (len (FastBwFsaShared.edges f) * n_batch))
    with (Z.to_nat n_batch * length (FastBwFsaShared.edges f))%nat by (unfold len; nia).
  replace (n_batch - 0) with (Z.of_nat (Z.to_nat n_batch)) by lia.
  apply (np_fill_batches (0, 0, 0, 0)
           (λ b e, int32_column np
                     (source_state_idx e + b * FastBwFsaShared.num_states f,
                      target_state_idx e + b * FastBwFsaShared.num_states f,
                      label e, b))
           (batch_column f) (FastBwFsaShared.edges f) (Z.to_nat n_batch) 0 []);
    [|reflexivity].
  intros b e Hb He. destruct (Hfit b ltac:(lia)) as (Hbr & _ & _ & Hes).
  destruct (Hes e He) as (Hs & Ht & l & Hl & Hlr).
  unfold batch_column. rewrite Hl. simpl. by apply Hnp.
Qed.

Lemma get_start_end_states_closed (np : Numpy) (f : FastBwFsaShared.t) (n_batch : Z) :
  stores_int32 np → batch_fits_int32 f n_batch → 0 ≤ n_batch →
  FastBwFsaShared.get_start_end_states np f n_batch
  = Some (batch_start_end f <$> range 0 n_batch).
Proof.
  intros [_ Hnp] Hfit Hn. unfold FastBwFsaShared.get_start_end_states, np_zeros, range.
  replace (n_batch <? 0) with false by (symmetry; apply Z.ltb_ge; lia).
  simpl. replace (n_batch - 0) with (Z.of_nat (Z.to_nat n_batch)) by lia.
  apply (np_fill_range (0, 0)
           (λ b, int32_pair np (0 + b * FastBwFsaShared.num_states f,
                                FastBwFsaShared.num_states f - 1
                                + b * FastBwFsaShared.num_states f))
           (batch_start_end f) (Z.to_nat n_batch) 0 []); [|reflexivity].
  intros b Hb. destruct (Hfit b ltac:(lia)) as (_ & Hs & He & _).
  unfold batch_start_end. by apply Hnp.
Qed.

(** X2.  Let numpy store integers in the range of [int32] as they are, and
    let every value that is written for a batch of [n_batch >= 0] sequences
    be such an integer.  Then [get_edges] and [get_start_end_states] return
    without an exception, and their arrays hold, one sequence after the
    other, the copies of the automaton: the column
    [batch_idx * num_edges + edge_idx] of the first is the edge with its
    states shifted by [batch_idx * num_states], its label and the index of
    the sequence; the column [batch_idx] of the second is the shifted
    states 0 and [num_states - 1].  The first array has [get_num_edges]
    columns, the second [n_batch]: no column stays zero for want of a
    write. *)
Theorem fast_bw_arrays_hold_the_batch_copies (np : Numpy) (f : FastBwFsaShared.t)
    (n_batch : Z) :
  stores_int32 np → batch_fits_int32 f n_batch → 0 ≤ n_batch →
  let ns := FastBwFsaShared.num_states f in
  ∃ cols ses,
    FastBwFsaShared.get_edges np f n_batch = Some cols
    ∧ FastBwFsaShared.get_start_end_states np f n_batch = Some ses
    ∧ len cols = FastBwFsaShared.get_num_edges f n_batch
    ∧ len ses = n_batch
    ∧ (∀ (b : Z) (i : nat) (e : Edge) (l : Z),
         0 ≤ b < n_batch → FastBwFsaShared.edges f !! i = Some e → label e = LInt l →
         py_index cols (b * len (FastBwFsaShared.edges f) + Z.of_nat i)
         = Some (source_state_idx e + b * ns, target_state_idx e + b * ns, l, b))
    ∧ (∀ b, 0 ≤ b < n_batch → py_index ses b = Some (0 + b * ns, ns - 1 + b * ns)).
Proof.
  intros Hnp Hfit Hn ns. eexists _, _.
  split; [by apply get_edges_closed|]. split; [by apply get_start_end_states_closed|].
  pose proof (len_range n_batch Hn) as Hlen.
  split_and!.
  - unfold len at 1.
    rewrite (length_bind_const _ (length (FastBwFsaShared.edges f)))
      by (intros; apply length_fmap).
    unfold FastBwFsaShared.get_num_edges, len in *. lia.
  - unfold len. rewrite length_fmap. exact Hlen.
  - intros b i e l Hb He Hl. unfold py_index.
    replace (0 <=? b * len (FastBwFsaShared.edges f) + Z.of_nat i) with true
      by (symmetry; apply Z.leb_le; unfold len; nia).
    replace (Z.to_nat (b * len (FastBwFsaShared.edges f) + Z.of_nat i))
      with (Z.to_nat b * length (FastBwFsaShared.edges f) + i)%nat by (unfold len; nia).
    rewrite (lookup_bind_const _ (length (FastBwFsaShared.edges f)) _
               ltac:(intros; apply length_fmap) (Z.to_nat b) i b).
    + rewrite list_lookup_fmap, He. simpl. unfold batch_column. by rewrite Hl.
    + unfold range. rewrite lookup_seqZ_lt by lia. f_equal. lia.
    + by apply lookup_lt_Some in He.
  - intros b Hb. unfold py_index.
    replace (0 <=? b) with true by (symmetry; apply Z.leb_le; lia).
    rewrite list_lookup_fmap. unfold range. rewrite lookup_seqZ_lt by lia. simpl.
    replace (0 + Z.of_nat (Z.to_nat b)) with b by lia. reflexivity.
Qed.

Lemma raising_numpy_stores_int32 : stores_int32 raising_numpy.
Proof.
  assert (H : ∀ z, in_int32 z → int32_or_raise z = Some z).
  { intros z [H1 H2]. unfold int32_or_raise.
    replace (- 2 ^ 31 <=? z) with true by (symmetry; apply Z.leb_le; lia).
    by replace (z <? 2 ^ 31) with true by (symmetry; apply Z.ltb_lt; lia). }
  split.
  - intros s t l b Hs Ht Hl Hb. simpl. by rewrite !H.
  - intros s e Hs He. simpl. by rewrite !H.
Qed.

Lemma fast_bw_built_bound (f : FastBwFsaShared.t) :
  fast_bw_built f →
  1 ≤ FastBwFsaShared.num_states f
  ∧ ∀ e, e ∈ FastBwFsaShared.edges f →
      source_state_idx e < FastBwFsaShared.num_states f
      ∧ target_state_idx e < FastBwFsaShared.num_states f.
Proof.
  intros Hb.
  assert (B : FastBwFsaShared.num_states f
              = least_count (states_of (FastBwFsaShared.edges f))).
  { induction Hb as [|f s t e' w _ IH|f s n _ IH].
    - reflexivity.
    - by apply add_edge_least_count.
    - unfold FastBwFsaShared.add_inf_loop. apply fold_left_inv; [done|].
      intros b x. apply add_edge_least_count. }
  destruct (least_count_bound (states_of (FastBwFsaShared.edges f))) as [H1 H2].
  rewrite <- B in H1, H2. split; [done|]. intros e He.
  split; apply H2; apply list_elem_of_bind; exists e; (split; [|done]).
  - left.
  - right. left.
Qed.

(** A batch fits [int32] when the automaton has been built with states
    that are not negative and labels in the range, and the states of all
    the copies together are no more than [2^31]. *)
Lemma built_fits_int32 (f : FastBwFsaShared.t) (n_batch : Z) :
  fast_bw_built f →
  Forall (λ s, 0 ≤ s) (states_of (FastBwFsaShared.edges f)) →
  Forall (λ e, ∃ l, label e = LInt l ∧ in_int32 l) (FastBwFsaShared.edges f) →
  n_batch * FastBwFsaShared.num_states f ≤ 2 ^ 31 →
  batch_fits_int32 f n_batch.
Proof.
  intros Hb Hpos Hlab Hsize. destruct (fast_bw_built_bound f Hb) as [Hns Hlt].
  rewrite Forall_forall in Hpos. rewrite Forall_forall in Hlab.
  intros b Hbn. revert Hsize Hns Hlt. generalize (FastBwFsaShared.num_states f) as ns.
  intros ns Hsize Hns Hlt.
  assert (Hblock : b * ns + ns ≤ 2 ^ 31) by nia.
  assert (Hb0 : 0 ≤ b * ns) by nia.
  unfold in_int32. split_and!; try lia; try nia.
  intros e He. destruct (Hlt e He) as [Hs Ht].
  assert (0 ≤ source_state_idx e)
    by (apply Hpos, list_elem_of_bind; exists e; split; [left|done]).
  assert (0 ≤ target_state_idx e)
    by (apply Hpos, list_elem_of_bind; exists e; split; [right; left|done]).
  split_and!; try lia. by apply Hlab.
Qed.

Lemma fast_bw_arrays_hold_the_batch_copies_witness :
  let f := FastBwFsaShared.add_inf_loop (FastBwFsaShared.add_edge FastBwFsaShared.init 0 1 5 0) 1 2 in
  let ns := FastBwFsaShared.num_states f in
  ∃ cols ses,
    FastBwFsaShared.get_edges raising_numpy f 2 = Some cols
    ∧ FastBwFsaShared.get_start_end_states raising_numpy f 2 = Some ses
    ∧ len cols = FastBwFsaShared.get_num_edges f 2
    ∧ len ses = 2
    ∧ (∀ (b : Z) (i : nat) (e : Edge) (l : Z),
         0 ≤ b < 2 → FastBwFsaShared.edges f !! i = Some e → label e = LInt l →
         py_index cols (b * len (FastBwFsaShared.edges f) + Z.of_nat i)
         = Some (source_state_idx e + b * ns, target_state_idx e + b * ns, l, b))
    ∧ (∀ b, 0 ≤ b < 2 → py_index ses b = Some (0 + b * ns, ns - 1 + b * ns)).
Proof.
  apply (fast_bw_arrays_hold_the_batch_copies raising_numpy
           (FastBwFsaShared.add_inf_loop (FastBwFsaShared.add_edge FastBwFsaShared.init 0 1 5 0) 1 2)
           2).
  - apply raising_numpy_stores_int32.
  - apply built_fits_int32.
    + apply built_add_inf_loop, built_add_edge, built_init.
    + vm_compute. repeat constructor; discriminate.
    + repeat (constructor; [eexists; split; [reflexivity|unfold in_int32; lia]|]). constructor.
    + vm_compute. discriminate.
  - lia.
Defined.

(** X4.  The copies of a batch do not share a state.  Let numpy store
    integers in the range of [int32] as they are, and let the automaton be
    built with [add_edge] and [add_inf_loop], with states that are not
    negative and emission indices in the range, the states of all the
    copies together being no more than [2^31].  Then every column of
    [get_edges] belongs to a sequence [b] of the batch, and its two states
    lie in the block of [num_states] states that starts at
    [b * num_states]; the pair that [get_start_end_states] holds for [b]
    is the first and the last state of that block. *)
Theorem fast_bw_batch_copies_keep_apart (np : Numpy) (f : FastBwFsaShared.t) (n_batch : Z)
    (cols : list column) (ses : list (Z * Z)) :
  stores_int32 np →
  fast_bw_built f →
  Forall (λ s, 0 ≤ s) (states_of (FastBwFsaShared.edges f)) →
  Forall (λ e, ∃ l, label e = LInt l ∧ in_int32 l) (FastBwFsaShared.edges f) →
  n_batch * FastBwFsaShared.num_states f ≤ 2 ^ 31 →
  FastBwFsaShared.get_edges np f n_batch = Some cols →
  FastBwFsaShared.get_start_end_states np f n_batch = Some ses →
  let ns := FastBwFsaShared.num_states f in
  (∀ s t l b, (s, t, l, b) ∈ cols →
     0 ≤ b < n_batch ∧ b * ns ≤ s < (b + 1) * ns ∧ b * ns ≤ t < (b + 1) * ns)
  ∧ (∀ b, 0 ≤ b < n_batch → py_index ses b = Some (b * ns, (b + 1) * ns - 1)).
Proof.
  intros Hnp Hb Hpos Hlab Hsize Hc Hs ns.
  destruct (Z.lt_ge_cases n_batch 0) as [Hn|Hn].
  { unfold FastBwFsaShared.get_start_end_states, np_zeros in Hs.
    by replace (n_batch <? 0) with true in Hs by (symmetry; apply Z.ltb_lt; lia). }
  pose proof (built_fits_int32 f n_batch Hb Hpos Hlab Hsize) as Hfit.
  rewrite get_edges_closed in Hc by done. injection Hc as <-.
  rewrite get_start_end_states_closed in Hs by done. injection Hs as <-.
  destruct (fast_bw_built_bound f Hb) as [_ Hlt]. fold ns in Hlt.
  rewrite Forall_forall in Hpos.
  split.
  - intros s t l b (b' & Hin & Hb')%list_elem_of_bind.
    apply list_elem_of_fmap in Hin as (e & Heq & He).
    unfold batch_column in Heq. injection Heq as -> -> -> ->.
    apply elem_of_seqZ in Hb'. destruct (Hlt e He) as [H1 H2]. fold ns.
    assert (0 ≤ source_state_idx e)
      by (apply Hpos, list_elem_of_bind; exists e; split; [left|done]).
    assert (0 ≤ target_state_idx e)
      by (apply Hpos, list_elem_of_bind; exists e; split; [right; left|done]).
    replace ((b' + 1) * ns) with (b' * ns + ns) by ring. lia.
  - intros b Hbn. unfold py_index.
    replace (0 <=? b) with true by (symmetry; apply Z.leb_le; lia).
    rewrite list_lookup_fmap. unfold range.
    rewrite lookup_seqZ_lt by lia. simpl. unfold batch_start_end. fold ns.
    rewrite Z2Nat.id by lia. f_equal. f_equal; ring.
Qed.

Lemma fast_bw_batch_copies_keep_apart_witness :
  let f := FastBwFsaShared.add_inf_loop (FastBwFsaShared.add_edge FastBwFsaShared.init 0 1 5 0) 1 2 in
  let ns := FastBwFsaShared.num_states f in
  (∀ s t l b,
     (s, t, l, b) ∈ [(0, 1, 5, 0); (1, 1, 0, 0); (1, 1, 1, 0);
                     (2, 3, 5, 1); (3, 3, 0, 1); (3, 3, 1, 1)] →
     0 ≤ b < 2 ∧ b * ns ≤ s < (b + 1) * ns ∧ b * ns ≤ t < (b + 1) * ns)
  ∧ (∀ b, 0 ≤ b < 2 → py_index [(0, 1); (2, 3)] b = Some (b * ns, (b + 1) * ns - 1)).
Proof.
  apply (fast_bw_batch_copies_keep_apart raising_numpy
           (FastBwFsaShared.add_inf_loop (FastBwFsaShared.add_edge FastBwFsaShared.init 0 1 5 0) 1 2)
           2).
  - apply raising_numpy_stores_int32.
  - apply built_add_inf_loop, built_add_edge, built_init.
  - vm_compute. repeat constructor; discriminate.
  - repeat (constructor; [eexists; split; [reflexivity|unfold in_int32; lia]|]). constructor.
  - vm_compute. discriminate.
  - reflexivity.
  - reflexivity.
Defined.

(** ** AllPossibleWordsFsa.run *)

Lemma fold_left_snoc_fmap {A B : Type} (f : A → B) (l : list A) (init : list B) :
  fold_left (λ acc x, acc ++ [f x]) l init = init ++ (f <$> l).
Proof.
  revert init. induction l as [|x l IH]; intros init; simpl.
  - by rewrite app_nil_r.
  - by rewrite IH, <- app_assoc.
Qed.

(** X5.  [AllPossibleWordsFsa.run] sets [num_states_word] to 1 and appends
    to [edges_word] one edge for every word of the lexicon, a loop at state
    0 with the word as its label and weight 0, whatever the order in which
    the dictionary is gone through; it appends no other edge and no edge
    twice.  The edges that [edges_word] held before stay in front, so that
    a second run doubles them, and no other field of the graph changes.
    Without a lexicon, or with an [fsa] that is no graph, [run] raises. *)
Theorem all_possible_words_one_loop_per_word :
  (∀ (lex : Hmm.Lexicon) (g : Graph),
     ∃ g' new,
       AllPossibleWordsFsa.run (AllPossibleWordsFsa.mk (Some lex)) (PGraph g) = Some g'
       ∧ g' = AllPossibleWordsFsa.set_word 1 (edges_word g ++ new) g
       ∧ NoDup new
       ∧ (∀ e, e ∈ new ↔ ∃ w, is_Some (lex !! w) ∧ e = new_Edge 0 0 (LStr w) 0)
       ∧ len new = Z.of_nat (size lex))
  ∧ (∀ a fsa,
       AllPossibleWordsFsa.lexicon a = None ∨ as_Graph fsa = None →
       AllPossibleWordsFsa.run a fsa = None).
Proof.
  split.
  - intros lex g.
    exists (AllPossibleWordsFsa.set_word 1
              (edges_word g ++ ((λ kv : string * list (string * Z), new_Edge 0 0 (LStr kv.1) 0)
                                 <$> map_to_list lex)) g),
      ((λ kv : string * list (string * Z), new_Edge 0 0 (LStr kv.1) 0) <$> map_to_list lex).
    split_and!.
    + unfold AllPossibleWordsFsa.run. simpl. by rewrite fold_left_snoc_fmap.
    + done.
    + replace ((λ kv : string * list (string * Z), new_Edge 0 0 (LStr kv.1) 0) <$> map_to_list lex)
        with ((λ w, new_Edge 0 0 (LStr w) 0) <$> (map_to_list lex).*1)
        by (by rewrite <- list_fmap_compose).
      apply NoDup_fmap_2; [|apply NoDup_fst_map_to_list].
      intros w1 w2 H. by injection H.
    + intros e. rewrite list_elem_of_fmap. split.
      * intros ([w v] & -> & Hin). apply elem_of_map_to_list in Hin.
        exists w. split; [by exists v|done].
      * intros (w & [v Hv] & ->). exists (w, v). split; [done|].
        by apply elem_of_map_to_list.
    + unfold len. by rewrite length_fmap, length_map_to_list.
  - intros a fsa [H|H]; unfold AllPossibleWordsFsa.run; rewrite H; simpl; [done|].
    by destruct (AllPossibleWordsFsa.lexicon a).
Qed.

(** ** load_lexicon: the name of the pickled lexicon *)

Lemma chars_app (s t : string) : chars (s +:+ t) = chars s ++ chars t.
Proof. unfold chars. induction s as [|c s IH]; simpl; [done|]. by rewrite IH. Qed.

Lemma string_of_list_ascii_app (l1 l2 : list ascii) :
  string_of_list_ascii (l1 ++ l2) = string_of_list_ascii l1 +:+ string_of_list_ascii l2.
Proof. induction l1 as [|c l1 IH]; simpl; [done|]. by rewrite IH. Qed.

Lemma drop_chars_app_all (set l1 l2 : list ascii) :
  Forall (λ c, c ∈ set) l1 → drop_chars set (l1 ++ l2) = drop_chars set l2.
Proof.
  induction 1 as [|c l1 Hc _ IH]; simpl; [done|]. by rewrite bool_decide_eq_true_2.
Qed.

Lemma last_rev {A : Type} (l : list A) : last (rev l) = head l.
Proof. destruct l as [|x l]; simpl; [done|]. by rewrite last_snoc. Qed.

Lemma head_rev {A : Type} (l : list A) : head (rev l) = last l.
Proof. by rewrite <- (rev_involutive l) at 2; rewrite last_rev. Qed.

Lemma rstrip_app_all (set s t : string) :
  Forall (λ c, c ∈ chars set) (chars t) → rstrip set (s +:+ t) = rstrip set s.
Proof.
  intros Ht. unfold rstrip. rewrite chars_app, rev_app_distr.
  rewrite drop_chars_app_all; [done|]. by apply Forall_rev.
Qed.

Lemma rstrip_keeps (set s : string) :
  (∀ c, last (chars s) = Some c → c ∉ chars set) → rstrip set s = s.
Proof.
  intros Hl. unfold rstrip.
  assert (E : drop_chars (chars set) (rev (chars s)) = rev (chars s)).
  { rewrite <- head_rev in Hl. destruct (rev (chars s)) as [|c l]; simpl; [done|].
    rewrite bool_decide_eq_false_2; [done|]. by apply Hl. }
  rewrite E, rev_involutive. apply string_of_list_ascii_of_string.
Qed.

Lemma head_drop_chars (set l : list ascii) (c : ascii) :
  head (drop_chars set l) = Some c → c ∉ set.
Proof.
  induction l as [|x l IH]; simpl; [done|].
  destruct (bool_decide_reflect (x ∈ set)) as [Hx|Hx]; [done|].
  simpl. by intros [= <-].
Qed.

Lemma rstrip_last (set s : string) (c : ascii) :
  last (chars (rstrip set s)) = Some c → c ∉ chars set.
Proof.
  unfold rstrip, chars at 1. rewrite list_ascii_of_string_of_list_ascii, last_rev.
  apply head_drop_chars.
Qed.

(** X6.  The name under which [load_lexicon] pickles a lexicon is the name
    of the lexicon without every trailing character out of the four
    characters backslash, dot, g and z, followed by [.pickle].  So the
    pickle of [stem.gz] is [stem.pickle] exactly when [stem] does not end
    in one of the four characters; and two names that differ only in a
    tail of such characters share one pickle. *)
Theorem lexicon_dumpname_strips_a_set_of_characters :
  (∀ stem,
     lexicon_dumpname (stem +:+ ".gz") = stem +:+ ".pickle"
     ↔ ∀ c, last (chars stem) = Some c → c ∉ chars "\.gz")
  ∧ (∀ name tail,
       Forall (λ c, c ∈ chars "\.gz") (chars tail) →
       lexicon_dumpname (name +:+ tail) = lexicon_dumpname name).
Proof.
  split.
  - intros stem. unfold lexicon_dumpname.
    rewrite (rstrip_app_all "\.gz" stem ".gz") by (repeat constructor; compute_done).
    split.
    + intros E c Hc.
      assert (E' : rstrip "\.gz" stem = stem).
      { apply (f_equal chars) in E. rewrite !chars_app in E. apply app_inv_tail in E.
        apply (f_equal string_of_list_ascii) in E.
        unfold chars in E. by rewrite !string_of_list_ascii_of_string in E. }
      apply (rstrip_last "\.gz" stem). by rewrite E'.
    + intros Hl. by rewrite rstrip_keeps.
  - intros name tail Ht. unfold lexicon_dumpname. by rewrite rstrip_app_all.
Qed.
